(** * Day-column event layout of react-big-calendar

    A shallow embedding of the day-view layout module (the sorter, the slot
    projector, the sibling/child classifier, the grouper and the layout
    driver [getStyledEvents]) and of the two functions of [src/utils/dates.js]
    it calls ([merge] and [diff]).

    Conventions of the embedding.
    - A JavaScript [Date] is its time value, an integer number of
      milliseconds ([Z]); invalid dates are outside the model.  The date of
      an event is a [Date] or [null] ([None]); [dates.merge] reads the clock
      for a date that is [null], and the reading is a parameter of the
      call.
    - Slots, [totalMin] and [step] are integers ([Z]).  A value that may be
      [undefined] is an [option]; arithmetic on [undefined] gives [NaN] and
      every comparison with [NaN] is false, so [None] also stands for [NaN].
    - Percentages are exact rationals ([Q]): the IEEE rounding of the
      doubles is not modelled.  The theorems about them give the
      expressions the code evaluates, the sign of a result and the range of
      [top]; what depends on the last digit of a double (a sum of widths
      against 100, a height against its smallest value) is not stated.
    - Event objects live in a store indexed by references, and arrays of
      events are lists of references, themselves held by reference where
      the caller's array matters, so that mutation and aliasing are
      visible. *)

From Stdlib Require Import ZArith QArith Qabs Qround Lia.
From stdpp Require Import base list sorting relations.

Local Open Scope Z_scope.

(** ** The date algebra ([date-arithmetic], [moment-timezone]) *)

Inductive TimeUnit := Milliseconds | Seconds | Minutes | Hours | Day.

(** [MILLI] of [dates.js]; the table has no entry for milliseconds, which
    [diff] handles before it looks the unit up. *)
Definition MILLI (unit : TimeUnit) : Z :=
  match unit with
  | Milliseconds => 1
  | Seconds => 1000
  | Minutes => 1000 * 60
  | Hours => 1000 * 60 * 60
  | Day => 1000 * 60 * 60 * 24
  end.

(** The operations [dates.js] inherits from the [date-arithmetic] package
    and the zone offset it asks [moment-timezone] for.  They are external to
    the repository: the layout is verified for every implementation. *)
Class DateMath := {
  startOf : Z -> TimeUnit -> Z;
  date_lt : Z -> Z -> TimeUnit -> bool;
  hours : Z -> Z;
  set_hours : Z -> Z -> Z;
  minutes : Z -> Z;
  set_minutes : Z -> Z -> Z;
  seconds : Z -> Z;
  set_seconds : Z -> Z -> Z;
  milliseconds : Z -> Z;
  set_milliseconds : Z -> Z -> Z;
  (* moment.tz.zone(moment.tz.guess()).offset(Date.parse(d)), in minutes *)
  zone_offset : Z -> Z
}.

(** [Math.round] on a rational. *)
Definition Math_round (x : Q) : Z := Qfloor (x + (1 # 2)).

Section Dates.
Context `{DateMath}.

(** [dates.merge(date, time)].  A date is [Some] time value or [None] for
    [null]; [now] is the time value [new Date()] gives when the function
    reads the clock, which it does for a date that is [null]. *)
Definition merge (now : Z) (date time : option Z) : option Z :=
  match date, time with
  | None, None => None
  | _, _ =>
      let time := default now time in
      let date := default now date in
      let date := startOf date Day in
      let date := set_hours date (hours time) in
      let date := set_minutes date (minutes time) in
      let date := set_seconds date (seconds time) in
      Some (set_milliseconds date (milliseconds time))
  end.

(** [moment(d).add(m, 'minutes').toDate()] *)
Definition add_minutes (d m : Z) : Z := d + m * MILLI Minutes.

(** [Math.round(Math.abs(+startOf(a, unit) / MILLI[unit]
                          - +startOf(b, unit) / MILLI[unit]))],
    the expression both branches of [diff] end in. *)
Definition scaled_distance (a b : Z) (unit : TimeUnit) : Z :=
  Math_round (Qabs (inject_Z (startOf a unit) / inject_Z (MILLI unit)
                    - inject_Z (startOf b unit) / inject_Z (MILLI unit))).

(** [dates.diff(dateA, dateB, unit)] *)
Definition diff (dateA dateB : Z) (unit : TimeUnit) : Z :=
  match unit with
  | Milliseconds => Z.abs (dateA - dateB)
  | _ =>
      let tzOffsetDateA := zone_offset dateA in
      let tzOffsetDateB := zone_offset dateB in
      let dstOffset := tzOffsetDateA - tzOffsetDateB in
      if dstOffset <? 0 then
        let dateANorm := add_minutes dateA (- dstOffset) in
        scaled_distance dateANorm dateB unit
      else
        let dateBNorm := add_minutes dateB dstOffset in
        scaled_distance dateA dateBNorm unit
  end.

(** [startsBefore(date, min)] and [positionFromDate(date, min, total)] of
    the layout module.  [min] is a date, so that [merge(min, date)] is one
    too ([merge] gives [null] for two [null]s only) and the branches for
    [None] are not reached; [date] is what an accessor returns, a date or
    [null]. *)
Definition startsBefore (now : Z) (date : option Z) (min : Z) : bool :=
  match merge now (Some min) date with
  | Some merged => date_lt merged min Minutes
  | None => false
  end.

Definition positionFromDate (now : Z) (date : option Z) (min total : Z) : Z :=
  if startsBefore now date min then 0
  else
    match merge now (Some min) date with
    | Some merged =>
        let diff := diff min merged Minutes in
        Z.min diff total
    | None => total
    end.
End Dates.

(** A date algebra to compute with: universal time, no daylight saving. *)
Module UTC.
Definition floor_to (d : Z) (unit : TimeUnit) : Z := d - d mod MILLI unit.
Definition field (d : Z) (unit inside : TimeUnit) : Z :=
  (d mod MILLI inside) / MILLI unit.
Definition set_field (d : Z) (unit inside : TimeUnit) (v : Z) : Z :=
  d + (v - field d unit inside) * MILLI unit.

Definition utc : DateMath := {|
  startOf := floor_to;
  date_lt := fun a b unit => floor_to a unit <? floor_to b unit;
  hours := fun d => field d Hours Day;
  set_hours := fun d v => set_field d Hours Day v;
  minutes := fun d => field d Minutes Hours;
  set_minutes := fun d v => set_field d Minutes Hours v;
  seconds := fun d => field d Seconds Minutes;
  set_seconds := fun d v => set_field d Seconds Minutes v;
  milliseconds := fun d => field d Milliseconds Seconds;
  set_milliseconds := fun d v => set_field d Milliseconds Seconds v;
  zone_offset := fun _ => 0
|}.

(** A time of day on the day that starts at [d0]. *)
Definition at_time (d0 h m : Z) : Z := d0 + h * MILLI Hours + m * MILLI Minutes.
End UTC.

(** ** More of [dates.js] *)

(** What [dates.diff] can get for [unit]: nothing (or another falsy
    value), milliseconds or a unit of the table [MILLI], or another string:
    ['week'], ['month'], ['year'] and the like. *)
Inductive UnitArg := NoUnit | Unit (unit : TimeUnit) | OtherUnit.

Section MoreDates.
Context `{DateMath}.

(** [dates.eqTime(dateA, dateB)] *)
Definition eqTime (dateA dateB : Z) : bool :=
  (hours dateA =? hours dateB)
  && (minutes dateA =? minutes dateB)
  && (seconds dateA =? seconds dateB).

(** [dates.isJustDate(date)] *)
Definition isJustDate (date : Z) : bool :=
  (hours date =? 0)
  && (minutes date =? 0)
  && (seconds date =? 0)
  && (milliseconds date =? 0).

(** [dates.diff(dateA, dateB, unit)] for any [unit] argument.  Without a
    unit [diff] takes the first branch, as for milliseconds.  For a unit
    that the table [MILLI] does not list, [MILLI[unit]] is [undefined]:
    both quotients are [NaN], and so are their difference and the result,
    for which [None] stands.  [diff] above is the function on the units
    for which the result is a number. *)
Definition diff_in (dateA dateB : Z) (unit : UnitArg) : option Z :=
  match unit with
  | NoUnit => Some (Z.abs (dateA - dateB))
  | Unit unit => Some (diff dateA dateB unit)
  | OtherUnit => None
  end.
End MoreDates.

(** The units [dates.total] has a case for, and the others. *)
Inductive TotalUnit := Week | Of (unit : TimeUnit).

#[global] Instance TimeUnit_eq_dec : EqDecision TimeUnit.
Proof. solve_decision. Defined.
#[global] Instance TotalUnit_eq_dec : EqDecision TotalUnit.
Proof. solve_decision. Defined.

(** The cases of the [switch] of [dates.total], in order, each with the
    factor its statement multiplies [div] by.  No case ends in [break]. *)
Definition total_cases : list (TotalUnit * Z) :=
  [(Week, 7); (Of Day, 24); (Of Hours, 60); (Of Minutes, 60); (Of Seconds, 1000)].

(** A [switch] without [break]: the statements run from the first case that
    matches to the end. *)
Fixpoint fall_through (unit : TotalUnit) (cases : list (TotalUnit * Z))
    (matched : bool) (div : Z) : Z :=
  match cases with
  | [] => div
  | (label, factor) :: cases =>
      let matched := matched || bool_decide (unit = label) in
      fall_through unit cases matched (if matched then div * factor else div)
  end.

(** [dates.total(date, unit)], on the time value [ms] of the date. *)
Definition total (ms : Z) (unit : TotalUnit) : Q :=
  let div := fall_through unit total_cases false 1 in
  (inject_Z ms / inject_Z div)%Q.

(** What [dates.merge] relies on in the getters and setters of the date
    library, for values in the range of the field: a setter sets its
    field, and leaves the larger fields and the day as they are. *)
Record DateLaws `{DateMath} : Prop := {
  hours_range : ∀ d, 0 <= hours d < 24;
  minutes_range : ∀ d, 0 <= minutes d < 60;
  seconds_range : ∀ d, 0 <= seconds d < 60;
  milliseconds_range : ∀ d, 0 <= milliseconds d < 1000;
  hours_set_hours : ∀ d v, 0 <= v < 24 → hours (set_hours d v) = v;
  minutes_set_minutes : ∀ d v, 0 <= v < 60 → minutes (set_minutes d v) = v;
  seconds_set_seconds : ∀ d v, 0 <= v < 60 → seconds (set_seconds d v) = v;
  milliseconds_set_milliseconds :
    ∀ d v, 0 <= v < 1000 → milliseconds (set_milliseconds d v) = v;
  hours_set_minutes : ∀ d v, 0 <= v < 60 → hours (set_minutes d v) = hours d;
  hours_set_seconds : ∀ d v, 0 <= v < 60 → hours (set_seconds d v) = hours d;
  hours_set_milliseconds :
    ∀ d v, 0 <= v < 1000 → hours (set_milliseconds d v) = hours d;
  minutes_set_seconds : ∀ d v, 0 <= v < 60 → minutes (set_seconds d v) = minutes d;
  minutes_set_milliseconds :
    ∀ d v, 0 <= v < 1000 → minutes (set_milliseconds d v) = minutes d;
  seconds_set_milliseconds :
    ∀ d v, 0 <= v < 1000 → seconds (set_milliseconds d v) = seconds d;
  day_startOf : ∀ d, startOf (startOf d Day) Day = startOf d Day;
  day_set_hours : ∀ d v, 0 <= v < 24 → startOf (set_hours d v) Day = startOf d Day;
  day_set_minutes :
    ∀ d v, 0 <= v < 60 → startOf (set_minutes d v) Day = startOf d Day;
  day_set_seconds :
    ∀ d v, 0 <= v < 60 → startOf (set_seconds d v) Day = startOf d Day;
  day_set_milliseconds :
    ∀ d v, 0 <= v < 1000 → startOf (set_milliseconds d v) Day = startOf d Day
}.
Arguments DateLaws : clear implicits.

(** ** JavaScript values and control *)

(** The outcome of running a piece of the layout: it completes, it throws a
    [TypeError] (a property read or written on [undefined]), or the bound
    the embedding puts on a [while] loop is reached.  The totality lemmas
    below show that the last two never happen. *)
Inductive outcome (A : Type) : Type :=
  | Done (a : A)
  | TypeError
  | OutOfFuel.
Arguments Done {A} a.
Arguments TypeError {A}.
Arguments OutOfFuel {A}.

#[global] Instance outcome_ret : MRet outcome := @Done.
#[global] Instance outcome_bind : MBind outcome := fun A B f m =>
  match m with
  | Done a => f a
  | TypeError => TypeError
  | OutOfFuel => OutOfFuel
  end.

(** Reading a property of a value that may be [undefined]. *)
Definition defined {A} (x : option A) : outcome A :=
  match x with
  | Some a => Done a
  | None => TypeError
  end.

(** Truthiness of a value that is an object or [undefined]. *)
Definition truthy {A} (x : option A) : bool :=
  match x with Some _ => true | None => false end.

(** Numbers that may be [undefined] / [NaN]. *)
Definition num_sub (a b : option Z) : option Z := x ← a; y ← b; Some (x - y).
Definition num_add (a b : option Z) : option Z := x ← a; y ← b; Some (x + y).
Definition Math_abs (a : option Z) : option Z := x ← a; Some (Z.abs x).
Definition Math_max (a b : option Z) : option Z := x ← a; y ← b; Some (Z.max x y).
Definition num_lt (a b : option Z) : bool :=
  match a, b with
  | Some x, Some y => x <? y
  | _, _ => false
  end.
Definition num_gt (a b : option Z) : bool := num_lt b a.

(** [array[i] = v] on a JavaScript array: an index past the end extends the
    array, leaving holes. *)
Definition array_set {A} (arr : list (option A)) (i : nat) (v : A) : list (option A) :=
  if (i <? length arr)%nat then <[i := Some v]> arr
  else arr ++ replicate (i - length arr) None ++ [Some v].

(** [array[i]] where the index itself may be [undefined]; a hole reads as
    [undefined]. *)
Definition array_get {A} (arr : list (option A)) (i : option nat) : option A :=
  n ← i; mjoin (arr !! n).

(** [Array.prototype.sort] with a comparator.  The sort of the language is
    stable, and a stable sort with a consistent comparator has one possible
    result, the one a stable insertion sort computes. *)
Fixpoint insert_sorted {A} (cmp : A -> A -> Z) (x : A) (l : list A) : list A :=
  match l with
  | [] => [x]
  | y :: l' => if cmp x y <=? 0 then x :: l else y :: insert_sorted cmp x l'
  end.

Fixpoint array_sort {A} (cmp : A -> A -> Z) (l : list A) : list A :=
  match l with
  | [] => []
  | x :: l' => insert_sorted cmp x (array_sort cmp l')
  end.

(** ** Events, the store and the layout *)

(** A reference to an event object, and a reference to an array. *)
Definition loc := nat.
Definition aref := nat.

Record Style := {
  top : option Q;      (* [None]: not a finite number *)
  height : option Q;
  width : Q;
  xOffset : Q
}.

(** [event] is [events[eventIdx]], a reference or [undefined]. *)
Record StyledEvent := { event : option loc; style : Style }.

Section Layout.
Context `{DateMath} {Data : Type}.

(** An event object: the caller's fields and the four fields the layout
    attaches ([None]: the property is absent). *)
Record Event := {
  payload : Data;
  overlappingCount : option nat;
  groupNumber : option nat;
  groupStart : option bool;
  groupEnd : option bool
}.

Definition set_overlappingCount (v : nat) (e : Event) : Event :=
  {| payload := payload e; overlappingCount := Some v;
     groupNumber := groupNumber e; groupStart := groupStart e;
     groupEnd := groupEnd e |}.
Definition set_groupNumber (v : nat) (e : Event) : Event :=
  {| payload := payload e; overlappingCount := overlappingCount e;
     groupNumber := Some v; groupStart := groupStart e;
     groupEnd := groupEnd e |}.
Definition set_groupStart (v : bool) (e : Event) : Event :=
  {| payload := payload e; overlappingCount := overlappingCount e;
     groupNumber := groupNumber e; groupStart := Some v;
     groupEnd := groupEnd e |}.
Definition set_groupEnd (v : bool) (e : Event) : Event :=
  {| payload := payload e; overlappingCount := overlappingCount e;
     groupNumber := groupNumber e; groupStart := groupStart e;
     groupEnd := Some v |}.

(** The store: the object each reference points to. *)
Definition Store := loc -> Event.

Definition update (σ : Store) (l : loc) (f : Event -> Event) : Store :=
  fun l' => if (l' =? l)%nat then f (σ l) else σ l'.

(** An accessor, resolved: a function from the event to the date the
    property holds, [None] when the property is [null].  A property that is
    not there at all ([undefined]) is outside the model: [merge] treats it
    as it treats [null], but [sort] gets [NaN] from its comparator for it,
    and the order is then left to the implementation. *)
Definition Accessor := Event -> option Z.

(** Modelled from the spec: [accessor] of [./accessors], which is not among
    the sources.  The spec leaves the resolution of a field name or an
    extraction function to that module; here an accessor is the function
    it resolves to. *)
Definition get (e : Event) (accessor : Accessor) : option Z := accessor e.

(** [+date]: the time value of a date, and 0 for [null]. *)
Definition to_number (date : option Z) : Z := default 0 date.

(** [helperArgs], and with it the clock the call runs under: [now] is the
    time value [new Date()] gives during the call.  The clock is read once
    for every slot of an event whose date is [null]; the embedding takes
    one reading for the whole call. *)
Record Args := {
  events : list loc;
  startAccessor : Accessor;
  endAccessor : Accessor;
  min : Z;
  totalMin : Z;
  step : Z;
  now : Z
}.

(** The projected start and end slots of an event object. *)
Definition startSlot (a : Args) (e : Event) : Z :=
  positionFromDate (now a) (get e (startAccessor a)) (min a) (totalMin a).
Definition endSlot (a : Args) (e : Event) : Z :=
  positionFromDate (now a) (get e (endAccessor a)) (min a) (totalMin a).

(** [events[idx]], as an object *)
Definition event_at (σ : Store) (a : Args) (idx : option nat) : option Event :=
  i ← idx; l ← events a !! i; Some (σ l).

(** The comparator of [sort]. *)
Definition compare_events (σ : Store) (startAccessor endAccessor : Accessor)
    (a b : loc) : Z :=
  let startA := to_number (get (σ a) startAccessor) in
  let startB := to_number (get (σ b) startAccessor) in
  if startA =? startB
  then to_number (get (σ b) endAccessor) - to_number (get (σ a) endAccessor)
  else startA - startB.

(** [sort(events, { startAccessor, endAccessor })]: the contents of the
    array [events] after the call, which returns that same array. *)
Definition sort (σ : Store) (events : list loc)
    (startAccessor endAccessor : Accessor) : list loc :=
  array_sort (compare_events σ startAccessor endAccessor) events.

(** The arrays of events are objects as well: [Arrays] gives the contents
    of the array each reference points to. *)
Definition Arrays := aref -> list loc.

Definition set_array (ρ : Arrays) (r : aref) (contents : list loc) : Arrays :=
  fun r' => if (r' =? r)%nat then contents else ρ r'.

(** [sort] with the array passed by reference, as the language passes it:
    [events.sort(...)] sorts the array [events] itself and returns it, so
    that the call changes the array of the caller and gives the reference
    it was given back. *)
Definition sort_in_place (σ : Store) (ρ : Arrays) (events : aref)
    (startAccessor endAccessor : Accessor) : Arrays * aref :=
  (set_array ρ events (sort σ (ρ events) startAccessor endAccessor), events).

Definition getSlot (now : Z) (event : option Event) (accessor : Accessor)
    (min totalMin : Z) : option Z :=
  e ← event; Some (positionFromDate now (get e accessor) min totalMin).

Definition isSibling (σ : Store) (idx1 idx2 : option nat) (a : Args) : bool :=
  let event1 := event_at σ a idx1 in
  let event2 := event_at σ a idx2 in
  if negb (truthy event1) || negb (truthy event2) then false
  else
    let start1 := getSlot (now a) event1 (startAccessor a) (min a) (totalMin a) in
    let start2 := getSlot (now a) event2 (startAccessor a) (min a) (totalMin a) in
    num_lt (Math_abs (num_sub start1 start2)) (Some 30).

Definition isChild (σ : Store) (parentIdx childIdx : option nat) (a : Args) : bool :=
  if isSibling σ parentIdx childIdx a then false
  else
    let parentEnd :=
      getSlot (now a) (event_at σ a parentIdx) (endAccessor a) (min a) (totalMin a) in
    let childStart :=
      getSlot (now a) (event_at σ a childIdx) (startAccessor a) (min a) (totalMin a) in
    num_gt parentEnd childStart.

(** The loop [while (isSibling(anchor, ++cursor, ...)) run.push(cursor)],
    which [getSiblings] and [getChildGroups] both contain: the run
    collected and the cursor the loop stops at.  [fuel] bounds the number
    of tests of the loop condition; one more than the number of events is
    enough ([sibling_run_spec]). *)
Fixpoint sibling_run (fuel : nat) (σ : Store) (a : Args) (anchor cursor : nat)
    (run : list nat) : outcome (list nat * nat) :=
  match fuel with
  | O => OutOfFuel
  | S fuel =>
      let cursor := S cursor in
      if isSibling σ (Some anchor) (Some cursor) a
      then sibling_run fuel σ a anchor cursor (run ++ [cursor])
      else Done (run, cursor)
  end.

(** The store [σ] gives the event objects as they are when the function is
    called, here and below. *)
Definition getSiblings (σ : Store) (idx : nat) (a : Args) : outcome (list nat) :=
  '(siblings, _) ← sibling_run (S (length (events a))) σ a idx idx [];
  mret siblings.

Fixpoint getChildGroups_loop (fuel : nat) (σ : Store) (a : Args) (idx nextIdx : nat)
    (groups : list (list nat)) (nbrOfColumns : nat)
    : outcome (list (list nat) * nat) :=
  match fuel with
  | O => OutOfFuel
  | S fuel =>
      if isChild σ (Some idx) (Some nextIdx) a then
        '(childGroup, siblingIdx) ←
          sibling_run (S (length (events a))) σ a nextIdx nextIdx [nextIdx];
        let nbrOfColumns := Nat.max nbrOfColumns (length childGroup) in
        getChildGroups_loop fuel σ a idx siblingIdx (groups ++ [childGroup])
          nbrOfColumns
      else Done (groups, nbrOfColumns)
  end.

(** The pair is [{ childGroups, nbrOfChildColumns }]. *)
Definition getChildGroups (σ : Store) (idx nextIdx : nat) (a : Args)
    : outcome (list (list nat) * nat) :=
  getChildGroups_loop (S (length (events a))) σ a idx nextIdx [] 0%nat.

(** [slot / totalMin * 100]; dividing by zero does not give a finite
    number. *)
Definition percent (slot : option Z) (totalMin : Z) : option Q :=
  x ← slot;
  if totalMin =? 0 then None
  else Some (inject_Z x / inject_Z totalMin * 100)%Q.

Definition Q_sub (a b : option Q) : option Q := x ← a; y ← b; Some (x - y)%Q.

(** The pair is [{ top, height }]. *)
Definition getYStyles (σ : Store) (idx : nat) (a : Args) : option Q * option Q :=
  let event := event_at σ a (Some idx) in
  let start := getSlot (now a) event (startAccessor a) (min a) (totalMin a) in
  let end_ :=
    Math_max (getSlot (now a) event (endAccessor a) (min a) (totalMin a))
             (num_add start (Some (step a))) in
  let top := percent start (totalMin a) in
  let bottom := percent end_ (totalMin a) in
  (top, Q_sub bottom top).

Definition isFirstSibling (siblingIdx : nat) : bool := (siblingIdx =? 0)%nat.

Definition isOnlyNestedElement (group : list nat) : bool :=
  (length group =? 1)%nat.

(** What the driver changes: the event objects and the array
    [styledEvents] it builds. *)
Record Layout := {
  store : Store;
  styledEvents : list (option StyledEvent)
}.

(** [events[eventIdx].field = v]; throws when there is no such event. *)
Definition assign (σ : Store) (a : Args) (eventIdx : nat) (f : Event -> Event)
    : outcome Store :=
  l ← defined (events a !! eventIdx);
  mret (update σ l f).

Definition of_nat (n : nat) : Q := inject_Z (Z.of_nat n).

(** [array.forEach((x, i) => ...)], the callback threading the state it
    changes. *)
Fixpoint forEach_from {A St : Type} (f : A -> nat -> St -> outcome St)
    (l : list A) (i : nat) (s : St) : outcome St :=
  match l with
  | [] => Done s
  | x :: l' => s' ← f x i s; forEach_from f l' (S i) s'
  end.

Definition forEach {A St : Type} (f : A -> nat -> St -> outcome St)
    (l : list A) (s : St) : outcome St :=
  forEach_from f l 0%nat s.

(** The callback of [[idx, ...siblings].forEach]. *)
Definition styleTopLevel (a : Args) (siblings : list nat)
    (eventIdx siblingIdx : nat) (s : Layout) : outcome Layout :=
  '(σ, width, xOffset) ←
    (if negb (length siblings =? 0)%nat then
       let siblingsNumber := (length siblings + 1)%nat in
       σ ← assign (store s) a eventIdx (set_overlappingCount siblingsNumber);
       σ ← assign σ a eventIdx (set_groupStart (siblingIdx =? 0)%nat);
       σ ← assign σ a eventIdx
             (set_groupEnd (siblingIdx =? length siblings)%nat);
       let width := (100 / of_nat siblingsNumber)%Q in
       let xOffset :=
         if isFirstSibling siblingIdx then 0%Q
         else (width * of_nat siblingIdx)%Q in
       mret (σ, width, xOffset)
     else mret (store s, 100%Q, 0%Q));
  let '(top, height) := getYStyles σ eventIdx a in
  mret {| store := σ;
          styledEvents :=
            array_set (styledEvents s) eventIdx
              {| event := events a !! eventIdx;
                 style := {| top := top; height := height;
                             width := width; xOffset := xOffset |} |} |}.

(** The loop that moves a child group to a sibling of the anchor:
    [while (isChild(siblings[siblingIdx], group[0], helperArgs))]. *)
Fixpoint reparent (fuel : nat) (σ : Store) (a : Args) (siblings group : list nat)
    (parentIdx : option nat) (siblingIdx : nat) : outcome (option nat) :=
  match fuel with
  | O => OutOfFuel
  | S fuel =>
      if isChild σ (siblings !! siblingIdx) (group !! 0%nat) a
      then reparent fuel σ a siblings group (siblings !! siblingIdx) (S siblingIdx)
      else Done parentIdx
  end.

(** The callback of [group.forEach]. *)
Definition styleChild (a : Args) (group : list nat) (groupIndex : nat)
    (parentIdx : option nat) (eventIdx i : nat) (s : Layout) : outcome Layout :=
  parent ← defined (array_get (styledEvents s) parentIdx);
  let parentStyle := style parent in
  let parentWidth := width parentStyle in
  let parentXOffset := xOffset parentStyle in
  let event := events a !! eventIdx in
  let offset := 3%Q in
  let nestedGroupOffset := 3%Q in
  let groupNumber := (groupIndex + 1)%nat in
  let overlappingCount := length group in
  '(σ, width, xOffset) ←
    (if isOnlyNestedElement group then
       let xOffset := (offset * of_nat groupNumber)%Q in
       let width := (100 - xOffset)%Q in
       mret (store s, width, xOffset)
     else
       let groupOffset := (nestedGroupOffset * of_nat groupNumber)%Q in
       let width :=
         ((parentWidth - offset * of_nat groupIndex) / of_nat overlappingCount
          - offset / of_nat overlappingCount)%Q in
       let childOffsetInGroup := (width * of_nat i)%Q in
       let xOffset := (parentXOffset + childOffsetInGroup + groupOffset)%Q in
       σ ← assign (store s) a eventIdx (set_overlappingCount overlappingCount);
       σ ← assign σ a eventIdx (set_groupNumber groupNumber);
       σ ← assign σ a eventIdx (set_groupStart (i =? 0)%nat);
       σ ← assign σ a eventIdx (set_groupEnd (i =? length group - 1)%nat);
       mret (σ, width, xOffset));
  let '(top, height) := getYStyles σ eventIdx a in
  mret {| store := σ;
          styledEvents :=
            array_set (styledEvents s) eventIdx
              {| event := event;
                 style := {| top := top; height := height;
                             width := width; xOffset := xOffset |} |} |}.

(** The callback of [childGroups.forEach]. *)
Definition styleChildGroup (a : Args) (idx : nat) (siblings : list nat)
    (group : list nat) (groupIndex : nat) (s : Layout) : outcome Layout :=
  parentIdx ←
    reparent (S (length siblings)) (store s) a siblings group (Some idx) 0%nat;
  forEach (styleChild a group groupIndex parentIdx) group s.

(** One iteration of the driver loop: the state and the cursor after it. *)
Definition cluster (a : Args) (idx : nat) (s : Layout) : outcome (Layout * nat) :=
  siblings ← getSiblings (store s) idx a;
  '(childGroups, _) ←
    getChildGroups (store s) idx (idx + length siblings + 1)%nat a;
  s ← forEach (styleTopLevel a siblings) (idx :: siblings) s;
  s ← forEach (styleChildGroup a idx siblings) childGroups s;
  mret (s, (idx + (1 + length siblings
                   + foldl (fun total group => total + length group) 0 childGroups))%nat).

Fixpoint driver (fuel : nat) (a : Args) (idx : nat) (s : Layout) : outcome Layout :=
  match fuel with
  | O => OutOfFuel
  | S fuel =>
      if (idx <? length (events a))%nat then
        '(s, idx) ← cluster a idx s;
        driver fuel a idx s
      else Done s
  end.

(** The configuration [getStyledEvents] is called with, and the clock the
    call runs under. *)
Record Config := {
  unsortedEvents : list loc;
  cfg_startAccessor : Accessor;
  cfg_endAccessor : Accessor;
  cfg_min : Z;
  cfg_totalMin : Z;
  cfg_step : Z;
  cfg_now : Z
}.

Definition helperArgs (σ : Store) (c : Config) : Args :=
  {| events := sort σ (unsortedEvents c) (cfg_startAccessor c) (cfg_endAccessor c);
     startAccessor := cfg_startAccessor c;
     endAccessor := cfg_endAccessor c;
     min := cfg_min c;
     totalMin := cfg_totalMin c;
     step := cfg_step c;
     now := cfg_now c |}.

(** [getStyledEvents(config)] run in the store [σ]: the final store and the
    array returned.  The array [config.events] holds [events (helperArgs σ c)]
    afterwards. *)
Definition getStyledEvents (σ : Store) (c : Config) : outcome Layout :=
  let helperArgs := helperArgs σ c in
  driver (S (length (events helperArgs))) helperArgs 0%nat
    {| store := σ; styledEvents := [] |}.

(** [getStyledEvents] with its array passed by reference: the property
    [events] of the argument is the array at [unsortedEvents], the other
    properties are those of [c].  The result has the arrays after the call
    beside its outcome; [helperArgs.events] is the array [sort] returns,
    read where the driver starts (the driver does not write to it). *)
Definition getStyledEvents_at (σ : Store) (ρ : Arrays) (unsortedEvents : aref)
    (c : Config) : Arrays * outcome Layout :=
  let '(ρ, events_ref) :=
    sort_in_place σ ρ unsortedEvents (cfg_startAccessor c) (cfg_endAccessor c) in
  let helperArgs :=
    {| events := ρ events_ref;
       startAccessor := cfg_startAccessor c;
       endAccessor := cfg_endAccessor c;
       min := cfg_min c;
       totalMin := cfg_totalMin c;
       step := cfg_step c;
       now := cfg_now c |} in
  (ρ, driver (S (length (events helperArgs))) helperArgs 0%nat
        {| store := σ; styledEvents := [] |}).
End Layout.

Arguments Event : clear implicits.
Arguments Store : clear implicits.
Arguments Accessor : clear implicits.
Arguments Args : clear implicits.
Arguments Config : clear implicits.
Arguments Layout : clear implicits.
Arguments Arrays : clear implicits.

Arguments getYStyles : simpl never.
Arguments isSibling : simpl never.
Arguments isChild : simpl never.
Arguments assign : simpl never.
Arguments array_set : simpl never.
Arguments array_get : simpl never.

(** ** Concrete events to compute with *)

Module Sample.
(** The caller's fields: [start] and [end], each a date or [null]. *)
Definition Data : Type := option Z * option Z.

Definition object (start_date end_date : option Z) : Event Data :=
  {| payload := (start_date, end_date);
     overlappingCount := None; groupNumber := None;
     groupStart := None; groupEnd := None |}.

(** An event from a time of day to another, in minutes, on the day that
    starts at 0 (universal time). *)
Definition ev (start_min end_min : Z) : Event Data :=
  object (Some (start_min * MILLI Minutes)) (Some (end_min * MILLI Minutes)).

Definition start_field : Accessor Data := fun e => fst (payload e).
Definition end_field : Accessor Data := fun e => snd (payload e).

(** The store that holds the objects [objs] at references 0, 1, ... *)
Definition store_of (objs : list (Event Data)) : Store Data :=
  fun l => nth l objs (ev 0 0).

(** A day from midnight, 1440 minutes, step 30, over the array
    [[0, 1, ..., n-1]] of references, in a call made at [clock]. *)
Definition day_at (clock : Z) (n : nat) : Config Data :=
  {| unsortedEvents := seq 0 n;
     cfg_startAccessor := start_field; cfg_endAccessor := end_field;
     cfg_min := 0; cfg_totalMin := 1440; cfg_step := 30; cfg_now := clock |}.

(** The same in a call made at noon. *)
Definition day (n : nat) : Config Data := day_at (UTC.at_time 0 12 0) n.

Definition run (objs : list (Event Data)) : outcome (Layout Data) :=
  @getStyledEvents UTC.utc Data (store_of objs) (day (length objs)).

(** The styles of a run, reduced to lowest terms. *)
Definition Qred_opt (q : option Q) : option Q := Qred <$> q.

Definition reduced (se : StyledEvent) : option loc * (option Q * option Q * Q * Q) :=
  (event se,
   (Qred_opt (top (style se)), Qred_opt (height (style se)),
    Qred (width (style se)), Qred (xOffset (style se)))).

Definition styles (objs : list (Event Data))
    : list (option (option loc * (option Q * option Q * Q * Q))) :=
  match run objs with
  | Done s => map (option_map reduced) (styledEvents s)
  | _ => []
  end.


(** The arrays of a caller who holds one array, at reference 0. *)
Definition one_array (contents : list loc) : Arrays :=
  fun r => if (r =? 0)%nat then contents else [].

(** The helper arguments of [run objs]. *)
Definition args (objs : list (Event Data)) : Args Data :=
  helperArgs (store_of objs) (day (length objs)).

(** Two events that start 29 minutes apart. *)
Definition near : list (Event Data) := [ev 540 600; ev 569 630].
(** An event and a second one inside it, 45 minutes after its start. *)
Definition nested : list (Event Data) := [ev 540 660; ev 585 615].
Definition single : list (Event Data) := [ev 540 600].
(** Two events that start together. *)
Definition twins : list (Event Data) := [ev 540 660; ev 540 600].
(** A run of three events, the second of which is over before the two
    events of the child group start, while the third still goes on. *)
Definition overlooked : list (Event Data) :=
  [ev 540 720; ev 545 560; ev 550 720; ev 600 630; ev 610 640].
End Sample.

(** * Vocabulary of the specification *)

Section Vocabulary.
Context `{DateMath} {Data : Type}.
Implicit Types (σ : Store Data) (a : Args Data) (e : Event Data).

(** The order the comparator of [sort] decides: an earlier start first, and
    for one start the later end first. *)
Definition precedes σ (startAccessor endAccessor : Accessor Data) (x y : loc) : Prop :=
  to_number (get (σ x) startAccessor) < to_number (get (σ y) startAccessor)
  ∨ (to_number (get (σ x) startAccessor) = to_number (get (σ y) startAccessor)
     ∧ to_number (get (σ y) endAccessor) <= to_number (get (σ x) endAccessor)).

(** Two stores whose objects carry the same caller's fields: the second
    differs from the first by attached layout fields only. *)
Definition same_payload σ σ' : Prop := ∀ l, payload (σ' l) = payload (σ l).

(** The end slot, raised to one step after the start slot. *)
Definition raisedEnd a e : Z := Z.max (endSlot a e) (startSlot a e + step a).

(** [top] and [height] of a style are those of the event object [e]. *)
Definition vertical a e (st : Style) : Prop :=
  ∃ t h, top st = Some t ∧ height st = Some h
    ∧ (t == 100 * inject_Z (startSlot a e) / inject_Z (totalMin a))%Q
    ∧ (h == 100 * inject_Z (raisedEnd a e - startSlot a e) / inject_Z (totalMin a))%Q.

(** Child groups that take up consecutive indices from [start] on, none of
    them empty. *)
Fixpoint groups_from (start : nat) (groups : list (list nat)) : Prop :=
  match groups with
  | [] => True
  | g :: gs => (∃ m, g = seq start (S m)) ∧ groups_from (start + length g) gs
  end.

(** The slots of the event at an index, [undefined] when there is none. *)
Definition startAt σ a (idx : option nat) : option Z :=
  getSlot (now a) (event_at σ a idx) (startAccessor a) (min a) (totalMin a).
Definition endAt σ a (idx : option nat) : option Z :=
  getSlot (now a) (event_at σ a idx) (endAccessor a) (min a) (totalMin a).

(** An update of an event object that leaves the caller's fields alone. *)
Definition keeps_payload (f : Event Data → Event Data) : Prop :=
  ∀ e, payload (f e) = payload e.

(** The object [l] stands in the event array at an index of [[lo, hi)]. *)
Definition touching a (lo hi : nat) (l : loc) : Prop :=
  ∃ i, (lo ≤ i < hi)%nat ∧ events a !! i = Some l.

(** What every entry of [styledEvents] satisfies: it refers to the event at
    its index, and its vertical styles are those of that event object
    ([σ] gives the caller's fields of the objects). *)
Definition entry_ok σ a (i : nat) (se : StyledEvent) : Prop :=
  ∃ l e, events a !! i = Some l ∧ event se = Some l
    ∧ payload e = payload (σ l)
    ∧ (totalMin a ≠ 0 → vertical a e (style se)).

(** A stretch of the run that styles the indices of [[lo, hi)]: it appends
    their entries to [styledEvents], in order and without holes, and
    changes layout fields of the objects at those indices only. *)
Record writes a (lo hi : nat) (s s' : Layout Data) : Prop := {
  writes_from : length (styledEvents s) = lo;
  writes_to : length (styledEvents s') = hi;
  writes_prefix : styledEvents s `prefix_of` styledEvents s';
  writes_entries : ∀ i, (lo ≤ i < hi)%nat →
    ∃ se, styledEvents s' !! i = Some (Some se) ∧ entry_ok (store s) a i se;
  writes_payload : same_payload (store s) (store s');
  writes_frame : ∀ l, ¬ touching a lo hi l → store s' l = store s l
}.

(** The three fields the top-level phase sets on a member of a run of more
    than one event. *)
Definition mark_top (siblings : list nat) (siblingIdx : nat) (e : Event Data)
    : Event Data :=
  set_groupEnd (siblingIdx =? length siblings)%nat
    (set_groupStart (siblingIdx =? 0)%nat
       (set_overlappingCount (length siblings + 1) e)).

(** The four fields the child-group phase sets on a member of a group of
    more than one event. *)
Definition mark_child (group : list nat) (groupIndex i : nat) (e : Event Data)
    : Event Data :=
  set_groupEnd (i =? length group - 1)%nat
    (set_groupStart (i =? 0)%nat
       (set_groupNumber (groupIndex + 1)
          (set_overlappingCount (length group) e))).

(** Width and offset of the member at position [siblingIdx] of a top-level
    run, as the top-level phase computes them. *)
Definition top_width (siblings : list nat) : Q :=
  if (length siblings =? 0)%nat then 100%Q
  else (100 / of_nat (length siblings + 1))%Q.
Definition top_xOffset (siblings : list nat) (siblingIdx : nat) : Q :=
  if (length siblings =? 0)%nat then 0%Q
  else if (siblingIdx =? 0)%nat then 0%Q
  else (100 / of_nat (length siblings + 1) * of_nat siblingIdx)%Q.

(** Width and offset of member [i] of a child group, from the style of the
    parent the group resolved to. *)
Definition child_width (parent : Style) (group : list nat) (groupIndex : nat) : Q :=
  if (length group =? 1)%nat then (100 - 3 * of_nat (groupIndex + 1))%Q
  else ((width parent - 3 * of_nat groupIndex) / of_nat (length group)
        - 3 / of_nat (length group))%Q.
Definition child_xOffset (parent : Style) (group : list nat) (groupIndex i : nat) : Q :=
  if (length group =? 1)%nat then (3 * of_nat (groupIndex + 1))%Q
  else (xOffset parent + child_width parent group groupIndex * of_nat i
        + 3 * of_nat (groupIndex + 1))%Q.

(** The number of indices a list of blocks takes up, for a forEach whose
    elements each style [size x] consecutive indices. *)
Definition span {A} (size : A → nat) (l : list A) : nat := sum_list (size <$> l).

(** What the top-level phase of the cluster anchored at [idx], with the run
    [idx, ..., idx + k], leaves in the state [s'] (the cluster started in
    [s]): the styles of the [k + 1] members and, when the events of the
    array are distinct objects, the fields attached to them. *)
Definition top_facts a (idx k : nat) (s s' : Layout Data) : Prop :=
  ∀ j, (j ≤ k)%nat →
    ∃ se l, styledEvents s' !! (idx + j)%nat = Some (Some se)
      ∧ width (style se) = top_width (seq (S idx) k)
      ∧ xOffset (style se) = top_xOffset (seq (S idx) k) j
      ∧ events a !! (idx + j)%nat = Some l
      ∧ (NoDup (events a) →
         store s' l =
           if (k =? 0)%nat then store s l
           else mark_top (seq (S idx) k) j (store s l)).

(** What the callback of [childGroups.forEach] leaves in [s'] for the group
    [group], number [gi] of the cluster anchored at [idx] with the run
    [idx, ..., idx + n]: the reparenting loop, run in the store [σ1] of that
    moment, resolves to a member [idx + k] of the run, styled as [parent],
    from which the members of the group take their styles. *)
Definition group_facts a (idx n : nat) (group : list nat) (gi : nat)
    (σ1 : Store Data) (s s' : Layout Data) : Prop :=
  ∃ k parent,
    reparent (S (length (seq (S idx) n))) σ1 a (seq (S idx) n) group (Some idx) 0
      = Done (Some (idx + k)%nat)
    ∧ (k ≤ n)%nat
    ∧ array_get (styledEvents s) (Some (idx + k)%nat) = Some parent
    ∧ styledEvents s' !! (idx + k)%nat = Some (Some parent)
    ∧ ∀ i x, group !! i = Some x →
        ∃ se l, styledEvents s' !! x = Some (Some se)
          ∧ width (style se) = child_width (style parent) group gi
          ∧ xOffset (style se) = child_xOffset (style parent) group gi i
          ∧ events a !! x = Some l
          ∧ (NoDup (events a) →
             store s' l =
               if (length group =? 1)%nat then store s l
               else mark_child group gi i (store s l)).

(** The heads of the driver loop: the cursor and the state each iteration
    starts from, in a run that starts from [s0] with the cursor at 0. *)
Inductive Visits a (s0 : Layout Data) : nat → Layout Data → Prop :=
  | visits_first : Visits a s0 0 s0
  | visits_next idx s s' idx' :
      Visits a s0 idx s →
      (idx < length (events a))%nat →
      cluster a idx s = Done (s', idx') →
      Visits a s0 idx' s'.


(** An accessor that reads the caller's fields only. *)
Definition reads_payload (accessor : Accessor Data) : Prop :=
  ∀ e e', payload e = payload e' → accessor e = accessor e'.

(** The state [getStyledEvents] starts the driver in. *)
Definition initial σ : Layout Data := {| store := σ; styledEvents := [] |}.

(** Two arrays of events, each with its store, that are alike for the
    layout: as many events, the same window, and at every index the same
    projected slots. *)
Record alike a1 σ1 a2 σ2 : Prop := {
  alike_length : length (events a1) = length (events a2);
  alike_totalMin : totalMin a1 = totalMin a2;
  alike_step : step a1 = step a2;
  alike_start : ∀ idx, startAt σ1 a1 idx = startAt σ2 a2 idx;
  alike_end : ∀ idx, endAt σ1 a1 idx = endAt σ2 a2 idx
}.



(** Both accessors of [a] read the caller's fields only. *)
Definition stable a : Prop :=
  reads_payload (startAccessor a) ∧ reads_payload (endAccessor a).

(** The configuration of a second call, on the array [events] as a first
    call has left it. *)
Definition with_events (c : Config Data) (events : list loc) : Config Data :=
  {| unsortedEvents := events;
     cfg_startAccessor := cfg_startAccessor c;
     cfg_endAccessor := cfg_endAccessor c;
     cfg_min := cfg_min c;
     cfg_totalMin := cfg_totalMin c;
     cfg_step := cfg_step c;
     cfg_now := cfg_now c |}.



(** A child group of the event at [idx]: consecutive indices from a first
    member that is a child of [idx], then the siblings of that member, up
    to the first index that is not one. *)
Definition is_child_group σ a (idx : nat) (group : list nat) : Prop :=
  ∃ first m,
    group = seq first (S m)
    ∧ isChild σ (Some idx) (Some first) a = true
    ∧ (∀ j, (first < j ≤ first + m)%nat →
         isSibling σ (Some first) (Some j) a = true)
    ∧ isSibling σ (Some first) (Some (first + m + 1)%nat) a = false.

(** One step of the driver loop, from a head to the next. *)
Definition next_head a (v w : nat * Layout Data) : Prop :=
  (v.1 < length (events a))%nat ∧ cluster a v.1 v.2 = Done (w.2, w.1).

(*DEFS-END*)
End Vocabulary.

(** * Properties *)

(** ** The slot projector on sample dates *)

Example position_0900 :
  @positionFromDate UTC.utc (UTC.at_time 0 12 0)
    (Some (UTC.at_time (3 * MILLI Day) 9 0)) 0 1440 = 540.
Proof. vm_compute. reflexivity. Qed.

Example position_before_min :
  @positionFromDate UTC.utc (UTC.at_time 0 12 0)
    (Some (UTC.at_time 0 7 15)) (UTC.at_time 0 8 0) 600 = 0.
Proof. vm_compute. reflexivity. Qed.

Example position_clamped :
  @positionFromDate UTC.utc (UTC.at_time 0 12 0)
    (Some (UTC.at_time 0 23 0)) (UTC.at_time 0 8 0) 600 = 600.
Proof. vm_compute. reflexivity. Qed.

(** A date that is [null] takes the time of day of the clock. *)
Example position_null :
  @positionFromDate UTC.utc (UTC.at_time (7 * MILLI Day) 10 30) None 0 1440 = 630.
Proof. vm_compute. reflexivity. Qed.

(** ** The relationship classifier *)

Section Classifier.
Context `{DateMath} {Data : Type}.
Implicit Types (σ : Store Data) (a : Args Data) (e : Event Data).

Lemma event_at_Some σ a i e :
  event_at σ a (Some i) = Some e ↔ ∃ l, events a !! i = Some l ∧ e = σ l.
Proof.
  unfold event_at. cbn. destruct (events a !! i) as [l|]; cbn.
  - split; [intros [= <-]; eauto | intros (l' & [= <-] & ->); done].
  - split; [done | intros (l' & ? & _); done].
Qed.

Lemma event_at_lt σ a i e : event_at σ a (Some i) = Some e → (i < length (events a))%nat.
Proof.
  intros (l & Hl & _)%event_at_Some. by apply lookup_lt_Some in Hl.
Qed.

Lemma event_at_None σ a : event_at σ a None = None.
Proof. reflexivity. Qed.

Lemma isSibling_events σ a i j e1 e2 :
  event_at σ a i = Some e1 → event_at σ a j = Some e2 →
  isSibling σ i j a = (Z.abs (startSlot a e1 - startSlot a e2) <? 30).
Proof. intros H1 H2. unfold isSibling. rewrite H1, H2. reflexivity. Qed.

Lemma isSibling_missing_l σ a i j : event_at σ a i = None → isSibling σ i j a = false.
Proof. intros H1. unfold isSibling. rewrite H1. reflexivity. Qed.

Lemma isSibling_missing_r σ a i j : event_at σ a j = None → isSibling σ i j a = false.
Proof.
  intros H2. unfold isSibling. rewrite H2. cbn. by rewrite orb_true_r.
Qed.

Lemma isSibling_true_lt σ a i j :
  isSibling σ i (Some j) a = true → (j < length (events a))%nat.
Proof.
  intros Hs. destruct (event_at σ a (Some j)) as [e|] eqn:He.
  - by eapply event_at_lt.
  - by rewrite isSibling_missing_r in Hs.
Qed.

Lemma isChild_events σ a p c e1 e2 :
  event_at σ a p = Some e1 → event_at σ a c = Some e2 →
  isChild σ p c a =
    if isSibling σ p c a then false else (startSlot a e2 <? endSlot a e1).
Proof. intros H1 H2. unfold isChild. rewrite H1, H2. reflexivity. Qed.

Lemma isChild_missing_l σ a p c : event_at σ a p = None → isChild σ p c a = false.
Proof.
  intros H1. unfold isChild. rewrite isSibling_missing_l, H1 by done.
  cbn. by destruct (getSlot _ _ _ _).
Qed.

Lemma isChild_missing_r σ a p c : event_at σ a c = None → isChild σ p c a = false.
Proof.
  intros H2. unfold isChild. rewrite isSibling_missing_r, H2 by done.
  reflexivity.
Qed.

Lemma isChild_true_lt σ a p c :
  isChild σ p (Some c) a = true → (c < length (events a))%nat.
Proof.
  intros Hc. destruct (event_at σ a (Some c)) as [e|] eqn:He.
  - by eapply event_at_lt.
  - by rewrite isChild_missing_r in Hc.
Qed.

(** C3. For two indices that reference existing events, [isSibling] holds
    exactly when the projected start slots are less than 30 minutes
    apart: 30 minutes apart is not a sibling, 29 minutes apart is. *)
Theorem isSibling_threshold σ a i j e1 e2 :
  event_at σ a (Some i) = Some e1 →
  event_at σ a (Some j) = Some e2 →
  (isSibling σ (Some i) (Some j) a = true
     ↔ Z.abs (startSlot a e1 - startSlot a e2) < 30)
  ∧ (Z.abs (startSlot a e1 - startSlot a e2) = 30
       → isSibling σ (Some i) (Some j) a = false)
  ∧ (Z.abs (startSlot a e1 - startSlot a e2) = 29
       → isSibling σ (Some i) (Some j) a = true).
Proof.
  intros H1 H2. rewrite (isSibling_events _ _ _ _ _ _ H1 H2).
  split; [apply Z.ltb_lt|].
  split; intros ->; reflexivity.
Qed.

(** C4. For two indices that reference existing events, [isChild] is
    false whenever the two are siblings, whatever their end times; when
    they are not, it holds exactly when the parent's projected end slot
    is greater than the child's projected start slot. *)
Theorem isChild_classification σ a p c e1 e2 :
  event_at σ a (Some p) = Some e1 →
  event_at σ a (Some c) = Some e2 →
  (isSibling σ (Some p) (Some c) a = true → isChild σ (Some p) (Some c) a = false)
  ∧ (isSibling σ (Some p) (Some c) a = false →
     (isChild σ (Some p) (Some c) a = true ↔ endSlot a e1 > startSlot a e2)).
Proof.
  intros H1 H2. rewrite (isChild_events _ _ _ _ _ _ H1 H2).
  split; intros ->; [done|].
  rewrite Z.ltb_lt. lia.
Qed.
End Classifier.

(** ** The sorter *)

Section ArraySort.
Context {A : Type} (cmp : A → A → Z).

(** [x] may stand before [y]. *)
Let before (x y : A) : Prop := cmp x y <= 0.

Hypothesis cmp_total : ∀ x y, before x y ∨ before y x.
Hypothesis cmp_trans : ∀ x y z, before x y → before y z → before x z.

Lemma insert_sorted_perm x l : insert_sorted cmp x l ≡ₚ x :: l.
Proof.
  induction l as [|y l IH]; cbn; [done|].
  destruct (cmp x y <=? 0); [done|].
  rewrite IH. apply Permutation_swap.
Qed.

Lemma array_sort_perm l : array_sort cmp l ≡ₚ l.
Proof.
  induction l as [|x l IH]; cbn; [done|].
  by rewrite insert_sorted_perm, IH.
Qed.

Lemma insert_sorted_sorted x l :
  StronglySorted before l → StronglySorted before (insert_sorted cmp x l).
Proof using cmp_total cmp_trans.
  induction 1 as [|y l Hl IH Hy]; cbn.
  - repeat constructor.
  - destruct (Z.leb_spec (cmp x y) 0) as [Hxy|Hxy].
    + constructor; [by constructor|].
      constructor; [done|].
      eapply Forall_impl; [exact Hy|]. intros z Hz. by eapply cmp_trans.
    + constructor; [done|].
      rewrite insert_sorted_perm. constructor; [|done].
      destruct (cmp_total x y) as [Hb|Hb]; [|done].
      unfold before in Hb. lia.
Qed.

Lemma array_sort_sorted l : StronglySorted before (array_sort cmp l).
Proof using cmp_total cmp_trans.
  induction l; cbn; [constructor|]. by apply insert_sorted_sorted.
Qed.

(** A stable sort leaves a sorted array as it is. *)
Lemma array_sort_fixed l : StronglySorted before l → array_sort cmp l = l.
Proof.
  induction 1 as [|x l Hl IH Hx]; cbn; [done|].
  rewrite IH. destruct Hx as [|y l Hxy _]; cbn; [done|].
  unfold before in Hxy. by destruct (Z.leb_spec (cmp x y) 0); [|lia].
Qed.
End ArraySort.

Lemma StronglySorted_lookup {A} (R : relation A) (l : list A) (i j : nat) (x y : A) :
  StronglySorted R l → (i < j)%nat → l !! i = Some x → l !! j = Some y → R x y.
Proof.
  intros Hs. revert i j. induction Hs as [|z l Hl IH Hz]; intros i j Hij Hi Hj.
  - done.
  - destruct j as [|j]; [lia|]. cbn in Hj. destruct i as [|i]; cbn in Hi.
    + injection Hi as <-. rewrite Forall_forall in Hz. apply Hz.
      by eapply list_elem_of_lookup_2.
    + apply (IH i j); [lia|done..].
Qed.

Lemma StronglySorted_impl {A} (R R' : relation A) (l : list A) :
  (∀ x y, R x y → R' x y) → StronglySorted R l → StronglySorted R' l.
Proof.
  intros HR. induction 1 as [|x l Hl IH Hx]; constructor; [done|].
  eapply Forall_impl; [exact Hx|]. intros y. apply HR.
Qed.

Section Sorter.
Context `{DateMath} {Data : Type}.
Implicit Types (σ : Store Data) (x y z : loc).
Variables (σ : Store Data) (startAccessor endAccessor : Accessor Data).

Local Abbreviation precedes := (precedes σ startAccessor endAccessor).
Local Abbreviation startOf_event x := (to_number (get (σ x) startAccessor)).
Local Abbreviation endOf_event x := (to_number (get (σ x) endAccessor)).

Lemma compare_events_precedes x y :
  compare_events σ startAccessor endAccessor x y <= 0 ↔ precedes x y.
Proof.
  unfold compare_events, precedes.
  destruct (Z.eqb_spec (startOf_event x) (startOf_event y)); lia.
Qed.

Lemma precedes_total x y : precedes x y ∨ precedes y x.
Proof. unfold precedes. lia. Qed.

Lemma precedes_trans x y z : precedes x y → precedes y z → precedes x z.
Proof. unfold precedes. lia. Qed.

Lemma compare_events_antisym x y :
  compare_events σ startAccessor endAccessor y x
  = - compare_events σ startAccessor endAccessor x y.
Proof.
  unfold compare_events.
  destruct (Z.eqb_spec (startOf_event x) (startOf_event y)),
    (Z.eqb_spec (startOf_event y) (startOf_event x)); lia.
Qed.

Lemma sort_perm l : sort σ l startAccessor endAccessor ≡ₚ l.
Proof. apply array_sort_perm. Qed.

Lemma sort_sorted l :
  StronglySorted precedes (sort σ l startAccessor endAccessor).
Proof.
  eapply StronglySorted_impl; [|apply array_sort_sorted].
  - intros x y. apply compare_events_precedes.
  - intros x y. rewrite !compare_events_precedes. apply precedes_total.
  - intros x y z. rewrite !compare_events_precedes. apply precedes_trans.
Qed.

Lemma sort_fixed l :
  StronglySorted precedes l → sort σ l startAccessor endAccessor = l.
Proof.
  intros Hl. apply array_sort_fixed.
  eapply StronglySorted_impl; [|exact Hl].
  intros x y. apply compare_events_precedes.
Qed.

Lemma set_array_eq (ρ : Arrays) r contents : set_array ρ r contents r = contents.
Proof. unfold set_array. by rewrite Nat.eqb_refl. Qed.

Lemma set_array_ne (ρ : Arrays) r r' contents :
  r' ≠ r → set_array ρ r contents r' = ρ r'.
Proof. intros Hr. unfold set_array. by destruct (Nat.eqb_spec r' r). Qed.

(** The call by reference runs the layout on the sorted array, which is the
    array of the caller. *)
Lemma getStyledEvents_at_run (ρ : Arrays) r (c : Config Data) :
  getStyledEvents_at σ ρ r c
  = (set_array ρ r (events (helperArgs σ (with_events c (ρ r)))),
     getStyledEvents σ (with_events c (ρ r))).
Proof.
  unfold getStyledEvents_at, sort_in_place, getStyledEvents, helperArgs. cbn.
  by rewrite set_array_eq.
Qed.

(** C2. [sort] reorders the array it is given in place and returns it: the
    reference returned is the reference passed, the array at that reference
    holds the sorted events afterwards, so that every holder of the
    reference sees them, and no other array changes.  The sorted array has
    the events it had before, ordered by ascending start time, an event
    with a later end standing before one with the same start and an
    earlier end; the order is total and transitive, so that it leaves one
    place to every pair of events that differ in start or end.
    [getStyledEvents] leaves the array of its caller sorted in this way,
    and that array is the one it lays out. *)
Theorem sort_order (ρ : Arrays) (arr : aref) :
  let '(ρ', returned) := sort_in_place σ ρ arr startAccessor endAccessor in
  let sorted := ρ' arr in
  returned = arr
  ∧ ρ' returned = sorted
  ∧ (∀ other, other ≠ arr → ρ' other = ρ other)
  ∧ sorted ≡ₚ ρ arr
  ∧ (∀ i j x y, sorted !! i = Some x → sorted !! j = Some y → (i < j)%nat →
       startOf_event x <= startOf_event y
       ∧ (startOf_event x = startOf_event y → endOf_event y <= endOf_event x))
  ∧ (∀ i j x y, sorted !! i = Some x → sorted !! j = Some y →
       startOf_event x = startOf_event y →
       endOf_event y < endOf_event x → (i < j)%nat)
  ∧ (∀ x y, precedes x y ∨ precedes y x)
  ∧ (∀ x y z, precedes x y → precedes y z → precedes x z)
  ∧ (∀ c : Config Data,
       cfg_startAccessor c = startAccessor → cfg_endAccessor c = endAccessor →
       getStyledEvents_at σ ρ arr c
       = (ρ', getStyledEvents σ (with_events c (ρ arr)))
       ∧ events (helperArgs σ (with_events c (ρ arr))) = sorted).
Proof.
  unfold sort_in_place. cbn zeta. rewrite set_array_eq.
  set (sorted := sort σ (ρ arr) startAccessor endAccessor).
  assert (Hpair : ∀ i j x y, sorted !! i = Some x → sorted !! j = Some y →
            (i < j)%nat → precedes x y).
  { intros i j x y Hi Hj Hij.
    by eapply (StronglySorted_lookup precedes sorted i j), Hj; [apply sort_sorted|..]. }
  split; [done|]. split; [done|].
  split; [intros other Hother; by apply set_array_ne|].
  split; [apply sort_perm|].
  split.
  { intros i j x y Hi Hj Hij. specialize (Hpair i j x y Hi Hj Hij).
    unfold precedes in Hpair. lia. }
  split.
  { intros i j x y Hi Hj Hs He.
    destruct (Nat.lt_trichotomy i j) as [Hlt|[->|Hgt]]; [done|..].
    - rewrite Hi in Hj. injection Hj as ->. lia.
    - specialize (Hpair j i y x Hj Hi Hgt). unfold precedes in Hpair. lia. }
  split; [apply precedes_total|].
  split; [apply precedes_trans|].
  intros c Hs He.
  assert (Hev : events (helperArgs σ (with_events c (ρ arr))) = sorted).
  { subst sorted. cbn. by rewrite Hs, He. }
  split; [|done]. by rewrite getStyledEvents_at_run, Hev.
Qed.
End Sorter.

(** ** Vertical styles *)

Section Vertical.
Context `{DateMath} {Data : Type}.
Implicit Types (σ : Store Data) (a : Args Data) (e : Event Data).

Lemma getYStyles_event σ a idx e :
  event_at σ a (Some idx) = Some e → totalMin a ≠ 0 →
  getYStyles σ idx a =
    (Some (inject_Z (startSlot a e) / inject_Z (totalMin a) * 100)%Q,
     Some (inject_Z (raisedEnd a e) / inject_Z (totalMin a) * 100
           - inject_Z (startSlot a e) / inject_Z (totalMin a) * 100)%Q).
Proof.
  intros He HT. unfold getYStyles. rewrite He. cbn.
  apply Z.eqb_neq in HT. unfold percent. cbn. rewrite HT. reflexivity.
Qed.

Lemma getYStyles_vertical σ a idx e t h w x :
  event_at σ a (Some idx) = Some e → totalMin a ≠ 0 →
  getYStyles σ idx a = (t, h) →
  vertical a e {| top := t; height := h; width := w; xOffset := x |}.
Proof.
  intros He HT. rewrite (getYStyles_event _ _ _ _ He HT). intros [= <- <-].
  eexists _, _. split; [reflexivity|]. split; [reflexivity|].
  assert (¬ (inject_Z (totalMin a) == 0)%Q) as HT'.
  { unfold Qeq. cbn. lia. }
  split.
  - field. exact HT'.
  - rewrite <- Z.add_opp_r, inject_Z_plus, inject_Z_opp. field. exact HT'.
Qed.

Lemma vertical_floor a e st h :
  0 < totalMin a → vertical a e st → height st = Some h →
  (100 * inject_Z (step a) / inject_Z (totalMin a) <= h)%Q
  ∧ (0 <= step a → (0 <= h)%Q).
Proof.
  intros HT (t & h' & _ & Hh & _ & Heq) Hh'. rewrite Hh in Hh'. injection Hh' as ->.
  assert (step a <= raisedEnd a e - startSlot a e) as Hstep.
  { unfold raisedEnd. lia. }
  assert (0 < inject_Z (totalMin a))%Q as HT'.
  { unfold Qlt. cbn. lia. }
  assert (Hmono : ∀ x y, x <= y →
    (100 * inject_Z x / inject_Z (totalMin a) <= 100 * inject_Z y / inject_Z (totalMin a))%Q).
  { intros x y Hxy. apply Qmult_le_compat_r.
    - apply Qmult_le_l; [reflexivity|]. by rewrite <- Zle_Qle.
    - apply Qlt_le_weak, Qinv_lt_0_compat, HT'. }
  split.
  - rewrite Heq. by apply Hmono.
  - intros Hs. rewrite Heq.
    eapply Qle_trans; [|apply (Hmono 0); lia].
    unfold Qdiv. rewrite Qmult_0_r, Qmult_0_l. apply Qle_refl.
Qed.
End Vertical.

(** ** The grouper *)

Section Grouper.
Context `{DateMath} {Data : Type}.
Implicit Types (σ : Store Data) (a : Args Data) (e : Event Data).

Lemma sibling_run_spec σ a anchor fuel cursor run :
  (length (events a) - S cursor < fuel)%nat →
  ∃ k, sibling_run fuel σ a anchor cursor run
         = Done (run ++ seq (S cursor) k, (S cursor + k)%nat)
     ∧ (∀ j, (S cursor ≤ j < S cursor + k)%nat →
          isSibling σ (Some anchor) (Some j) a = true)
     ∧ isSibling σ (Some anchor) (Some (S cursor + k)%nat) a = false
     ∧ ((cursor < length (events a))%nat → (cursor + k < length (events a))%nat).
Proof.
  revert cursor run. induction fuel as [|fuel IH]; intros cursor run Hfuel; [lia|].
  cbn [sibling_run].
  destruct (isSibling σ (Some anchor) (Some (S cursor)) a) eqn:Hs.
  - pose proof (isSibling_true_lt _ _ _ _ Hs) as Hlt.
    destruct (IH (S cursor) (run ++ [S cursor])) as (k & Hrun & Hall & Hstop & Hin);
      [lia|].
    exists (S k). rewrite Hrun, <- app_assoc. cbn.
    split; [do 2 f_equal; lia|].
    split.
    { intros j Hj. destruct (decide (j = S cursor)) as [->|]; [done|].
      apply Hall. lia. }
    split; [by replace (S (cursor + S k)) with (S (S cursor) + k)%nat by lia|].
    intros _. specialize (Hin Hlt). lia.
  - exists 0%nat. rewrite app_nil_r, Nat.add_0_r.
    split; [done|]. split; [intros j; lia|]. split; [done|]. lia.
Qed.

Lemma getSiblings_spec σ a idx :
  (idx < length (events a))%nat →
  ∃ k, getSiblings σ idx a = Done (seq (S idx) k)
     ∧ (idx + k < length (events a))%nat
     ∧ (∀ j, (idx < j ≤ idx + k)%nat → isSibling σ (Some idx) (Some j) a = true)
     ∧ isSibling σ (Some idx) (Some (S idx + k)%nat) a = false.
Proof.
  intros Hidx. unfold getSiblings.
  destruct (sibling_run_spec σ a idx (S (length (events a))) idx [])
    as (k & -> & Hall & Hstop & Hin); [lia|].
  exists k. cbn. split; [done|]. split; [auto|].
  split; [|done]. intros j Hj. apply Hall. lia.
Qed.

Lemma groups_from_app start gs g :
  groups_from start gs → (∃ m, g = seq (start + length (concat gs)) (S m)) →
  groups_from start (gs ++ [g]).
Proof.
  revert start. induction gs as [|g' gs IH]; intros start Hgs Hg; cbn in *.
  - rewrite Nat.add_0_r in Hg. done.
  - destruct Hgs as [Hg' Hgs]. split; [done|]. apply IH; [done|].
    rewrite length_app in Hg. by rewrite <- Nat.add_assoc.
Qed.

Lemma groups_from_concat start gs :
  groups_from start gs → concat gs = seq start (length (concat gs)).
Proof.
  revert start. induction gs as [|g gs IH]; intros start Hgs; cbn in *; [done|].
  destruct Hgs as [[m Hg] Hgs]. rewrite length_app, seq_app.
  f_equal; [|by apply IH].
  rewrite Hg. cbn. by rewrite length_seq.
Qed.

Lemma getChildGroups_loop_spec σ a idx fuel nextIdx groups n start :
  (length (events a) - nextIdx < fuel)%nat →
  (nextIdx ≤ length (events a))%nat →
  groups_from start groups →
  nextIdx = (start + length (concat groups))%nat →
  ∃ groups' n',
    getChildGroups_loop fuel σ a idx nextIdx groups n = Done (groups', n')
    ∧ groups_from start groups'
    ∧ (start + length (concat groups') ≤ length (events a))%nat.
Proof.
  revert nextIdx groups n.
  induction fuel as [|fuel IH]; intros nextIdx groups n Hfuel Hle Hgs Hnext; [lia|].
  cbn [getChildGroups_loop].
  destruct (isChild σ (Some idx) (Some nextIdx) a) eqn:Hc.
  - pose proof (isChild_true_lt _ _ _ _ Hc) as Hlt.
    destruct (sibling_run_spec σ a nextIdx (S (length (events a))) nextIdx [nextIdx])
      as (k & -> & _ & _ & Hin); [lia|]. specialize (Hin Hlt). cbn.
    apply IH; [lia|lia| |].
    + apply groups_from_app; [done|]. exists k. by rewrite <- Hnext.
    + rewrite concat_app, length_app. cbn. rewrite app_nil_r, length_seq. lia.
  - exists groups, n. split; [done|]. split; [done|]. lia.
Qed.

Lemma getChildGroups_spec σ a idx nextIdx :
  (nextIdx ≤ length (events a))%nat →
  ∃ groups n,
    getChildGroups σ idx nextIdx a = Done (groups, n)
    ∧ groups_from nextIdx groups
    ∧ (nextIdx + length (concat groups) ≤ length (events a))%nat.
Proof.
  intros Hle. unfold getChildGroups.
  apply getChildGroups_loop_spec; [lia|done|done|cbn; lia].
Qed.

Lemma sum_group_lengths (groups : list (list nat)) n :
  foldl (fun total group => total + length group)%nat n groups
  = (n + length (concat groups))%nat.
Proof.
  revert n. induction groups as [|g gs IH]; intros n; cbn; [lia|].
  rewrite IH, length_app. lia.
Qed.
End Grouper.

(** ** The store and the array of styled events *)

Section StoreFacts.
Context `{DateMath} {Data : Type}.
Implicit Types (σ : Store Data) (a : Args Data) (e : Event Data).
Implicit Types (s : Layout Data).

Lemma update_eq σ l f : update σ l f l = f (σ l).
Proof. unfold update. by rewrite Nat.eqb_refl. Qed.

Lemma update_ne σ l l' f : l' ≠ l → update σ l f l' = σ l'.
Proof. intros Hne. unfold update. by destruct (Nat.eqb_spec l' l). Qed.


Lemma same_payload_trans σ1 σ2 σ3 :
  same_payload σ1 σ2 → same_payload σ2 σ3 → same_payload σ1 σ3.
Proof. intros H12 H23 l. by rewrite H23, H12. Qed.

Lemma same_payload_sym σ1 σ2 : same_payload σ1 σ2 → same_payload σ2 σ1.
Proof. intros H12 l. by rewrite H12. Qed.


Lemma mark_top_payload siblings j :
  keeps_payload (Data := Data) (mark_top siblings j).
Proof. done. Qed.

Lemma mark_child_payload group gi i :
  keeps_payload (Data := Data) (mark_child group gi i).
Proof. done. Qed.

Lemma assign_Done σ a i l f :
  events a !! i = Some l → assign σ a i f = Done (update σ l f).
Proof. intros Hl. unfold assign. by rewrite Hl. Qed.

Lemma array_set_end {A} (arr : list (option A)) v :
  array_set arr (length arr) v = arr ++ [Some v].
Proof.
  unfold array_set. rewrite Nat.ltb_irrefl, Nat.sub_diag. reflexivity.
Qed.

Lemma event_at_lookup σ a i l :
  events a !! i = Some l → event_at σ a (Some i) = Some (σ l).
Proof. intros Hl. unfold event_at. cbn. by rewrite Hl. Qed.

(** One callback that styles the event at index [i]. *)
Lemma writes_single a i s σ' l t h w x :
  events a !! i = Some l →
  length (styledEvents s) = i →
  same_payload (store s) σ' →
  (∀ l', l' ≠ l → σ' l' = store s l') →
  getYStyles σ' i a = (t, h) →
  writes a i (S i) s
    {| store := σ';
       styledEvents := styledEvents s ++
         [Some {| event := Some l;
                  style := {| top := t; height := h; width := w; xOffset := x |} |}] |}.
Proof.
  intros Hl Hlen Hpay Hframe Hy. split; cbn.
  - done.
  - rewrite length_app. cbn. lia.
  - by apply prefix_app_r.
  - intros j Hj. assert (j = i) as -> by lia.
    eexists. split.
    { rewrite lookup_app_r by lia. by rewrite Hlen, Nat.sub_diag. }
    exists l, (σ' l). split; [done|]. split; [done|]. split; [apply Hpay|].
    intros HT. eapply getYStyles_vertical; [|done..].
    by apply event_at_lookup.
  - done.
  - intros l' Hl'. apply Hframe. intros ->. apply Hl'. exists i. split; [lia|done].
Qed.

Lemma styleTopLevel_spec a siblings eventIdx j s l :
  events a !! eventIdx = Some l →
  length (styledEvents s) = eventIdx →
  ∃ s' se,
    styleTopLevel a siblings eventIdx j s = Done s'
    ∧ writes a eventIdx (S eventIdx) s s'
    ∧ styledEvents s' !! eventIdx = Some (Some se)
    ∧ width (style se) = top_width siblings
    ∧ xOffset (style se) = top_xOffset siblings j
    ∧ store s' l =
        (if (length siblings =? 0)%nat then store s l
         else mark_top siblings j (store s l)).
Proof.
  intros Hl Hlen. unfold styleTopLevel, top_width, top_xOffset, isFirstSibling.
  subst eventIdx. rewrite Hl.
  destruct (Nat.eqb_spec (length siblings) 0) as [Hs|Hs]; cbn.
  - destruct (getYStyles (store s) _ a) as [t h] eqn:Hy. cbn.
    rewrite array_set_end. eexists _, _.
    split; [reflexivity|]. split; [by eapply writes_single|].
    cbn. rewrite lookup_app_r by lia. by rewrite Nat.sub_diag.
  - repeat (rewrite (assign_Done _ _ _ _ _ Hl); cbn).
    match goal with |- context [getYStyles ?σ' _ _] =>
      set (σ1 := σ'); destruct (getYStyles σ1 (length (styledEvents s)) a)
        as [t h] eqn:Hy end.
    cbn. rewrite array_set_end. eexists _, _.
    split; [reflexivity|]. split.
    { eapply writes_single; [done..| | |done].
      - intros l'. unfold σ1, update.
        destruct (Nat.eqb_spec l' l) as [->|]; [|done].
        by rewrite !Nat.eqb_refl.
      - intros l' Hne. unfold σ1. by rewrite !update_ne. }
    cbn. rewrite lookup_app_r by lia. rewrite Nat.sub_diag. cbn.
    split; [done|]. split; [done|]. split; [done|].
    unfold σ1. by rewrite !update_eq.
Qed.
End StoreFacts.

(** ** Stretches of the run *)

Section Writes.
Context `{DateMath} {Data : Type}.
Implicit Types (σ : Store Data) (a : Args Data) (e : Event Data).
Implicit Types (s : Layout Data).

Lemma writes_le a lo hi s s' : writes a lo hi s s' → (lo ≤ hi)%nat.
Proof.
  intros [Hfrom Hto Hpre _ _ _]. apply prefix_length in Hpre. lia.
Qed.

Lemma writes_nil a s : writes a (length (styledEvents s)) (length (styledEvents s)) s s.
Proof.
  split; try done.
  - intros i Hi. lia.
Qed.

Lemma entry_ok_payload σ σ' a i se :
  same_payload σ σ' → entry_ok σ' a i se → entry_ok σ a i se.
Proof.
  intros Hpay (l & e & Hl & He & Hp & Hv). exists l, e.
  split; [done|]. split; [done|]. split; [by rewrite Hp, Hpay|done].
Qed.

Lemma writes_trans a lo mid hi s1 s2 s3 :
  writes a lo mid s1 s2 → writes a mid hi s2 s3 → writes a lo hi s1 s3.
Proof.
  intros H12 H23.
  pose proof (writes_le _ _ _ _ _ H12). pose proof (writes_le _ _ _ _ _ H23).
  destruct H12 as [Hf1 Ht1 Hp1 He1 Hs1 Hr1], H23 as [Hf2 Ht2 Hp2 He2 Hs2 Hr2].
  split.
  - done.
  - done.
  - by etrans.
  - intros i Hi. destruct (decide (i < mid)%nat) as [Hlt|Hge].
    + destruct (He1 i) as (se & Hse & Hok); [lia|]. exists se. split; [|done].
      by eapply prefix_lookup_Some.
    + destruct (He2 i) as (se & Hse & Hok); [lia|]. exists se. split; [done|].
      by eapply entry_ok_payload.
  - by eapply same_payload_trans.
  - intros l Hl. rewrite Hr2, Hr1; [done|..].
    + intros (i & Hi & Hli). apply Hl. exists i. split; [lia|done].
    + intros (i & Hi & Hli). apply Hl. exists i. split; [lia|done].
Qed.

(** Entries and objects that a later stretch leaves as they are. *)
Lemma writes_keeps_entry a lo hi s s' i x :
  writes a lo hi s s' → styledEvents s !! i = Some x → styledEvents s' !! i = Some x.
Proof. intros Hw Hi. eapply prefix_lookup_Some; [done|]. apply Hw. Qed.

Lemma writes_keeps_object a lo hi s s' i l :
  writes a lo hi s s' → NoDup (events a) → events a !! i = Some l → (i < lo)%nat →
  store s' l = store s l.
Proof.
  intros Hw Hnd Hl Hi. apply Hw. intros (j & Hj & Hlj).
  assert (i = j) by (by eapply NoDup_lookup). lia.
Qed.

(** A forEach whose callback at position [j] styles the [size x] indices
    that follow those of the elements before it. *)
Lemma forEach_from_blocks {A} a (size : A → nat)
    (f : A → nat → Layout Data → outcome (Layout Data)) l lo i0 s :
  length (styledEvents s) = lo →
  (∀ j x s1, l !! j = Some x →
     writes a lo (lo + span size (take j l)) s s1 →
     ∃ s2, f x (i0 + j)%nat s1 = Done s2
       ∧ writes a (lo + span size (take j l))
                  (lo + span size (take j l) + size x) s1 s2) →
  ∃ s', forEach_from f l i0 s = Done s'
    ∧ writes a lo (lo + span size l) s s'
    ∧ ∀ j x, l !! j = Some x →
        ∃ s1 s2, writes a lo (lo + span size (take j l)) s s1
          ∧ f x (i0 + j)%nat s1 = Done s2
          ∧ writes a (lo + span size (take j l))
                     (lo + span size (take j l) + size x) s1 s2
          ∧ writes a (lo + span size (take j l) + size x) (lo + span size l) s2 s'.
Proof.
  revert lo i0 s. induction l as [|x l IH]; intros lo i0 s Hlen Hf.
  - exists s. cbn. split; [done|]. unfold span. cbn. rewrite Nat.add_0_r.
    split; [subst lo; apply writes_nil|]. intros j x Hx. done.
  - destruct (Hf 0%nat x s) as (s2 & Hfx & Hw2); [done|..].
    { unfold span. cbn. rewrite Nat.add_0_r. subst lo. apply writes_nil. }
    unfold span in Hw2, Hfx. cbn in Hw2, Hfx. rewrite !Nat.add_0_r in *.
    destruct (IH (lo + size x)%nat (S i0) s2) as (s' & Hrun & Hw' & Hloc).
    { apply Hw2. }
    { intros j y s1 Hy Hw1.
      destruct (Hf (S j) y s1) as (s3 & Hfy & Hw3); [done|..].
      - unfold span in *. cbn. rewrite Nat.add_assoc.
        by eapply writes_trans.
      - exists s3. rewrite <- Nat.add_succ_comm in Hfy. split; [done|].
        unfold span in *. cbn in Hw3. by rewrite Nat.add_assoc in Hw3. }
    exists s'. cbn [forEach_from]. rewrite Hfx.
    assert (Hsp : (lo + span size (x :: l) = lo + size x + span size l)%nat).
    { unfold span. cbn. lia. }
    split; [exact Hrun|]. split.
    { rewrite Hsp. by eapply writes_trans. }
    intros [|j] y Hy.
    + injection Hy as <-. exists s, s2. rewrite Hsp.
      change (span size (take 0 (x :: l))) with 0%nat. rewrite !Nat.add_0_r.
      split; [subst lo; apply writes_nil|done].
    + cbn in Hy. destruct (Hloc j y Hy) as (s1 & s3 & Hw1 & Hfy & Hw3 & Hw4).
      exists s1, s3.
      assert (Hsp' : (lo + span size (take (S j) (x :: l))
                      = lo + size x + span size (take j l))%nat).
      { unfold span. cbn. lia. }
      rewrite Hsp, Hsp', <- Nat.add_succ_comm.
      split; [by eapply writes_trans|done].
Qed.
End Writes.

(** ** The top-level phase *)

Section TopLevelPhase.
Context `{DateMath} {Data : Type}.
Implicit Types (σ : Store Data) (a : Args Data) (e : Event Data).
Implicit Types (s : Layout Data).

Lemma span_unit {A} (l : list A) : span (fun _ => 1%nat) l = length l.
Proof. unfold span. induction l; cbn; [done|]. by f_equal. Qed.

Lemma span_unit_take {A} (l : list A) j x :
  l !! j = Some x → span (fun _ => 1%nat) (take j l) = j.
Proof.
  intros Hx. rewrite span_unit, length_take. apply lookup_lt_Some in Hx. lia.
Qed.

Lemma span_length_concat (groups : list (list nat)) :
  span length groups = length (concat groups).
Proof.
  unfold span. induction groups as [|g gs IH]; cbn; [done|].
  by rewrite length_app, IH.
Qed.

(** The callbacks of [[idx, ...siblings].forEach], for the run
    [idx, ..., idx + k]. *)
Lemma topLevel_phase a idx k s :
  (idx + k < length (events a))%nat →
  length (styledEvents s) = idx →
  ∃ s1,
    forEach (styleTopLevel a (seq (S idx) k)) (idx :: seq (S idx) k) s = Done s1
    ∧ writes a idx (idx + S k) s s1
    ∧ top_facts a idx k s s1.
Proof.
  intros Hk Hlen. set (siblings := seq (S idx) k).
  change (idx :: siblings) with (seq idx (S k)).
  assert (Hcall : ∀ j x s1, seq idx (S k) !! j = Some x →
            writes a idx (idx + j) s s1 →
            ∃ s2 se l, styleTopLevel a siblings x j s1 = Done s2
              ∧ writes a (idx + j) (idx + j + 1) s1 s2
              ∧ x = (idx + j)%nat
              ∧ styledEvents s2 !! x = Some (Some se)
              ∧ width (style se) = top_width siblings
              ∧ xOffset (style se) = top_xOffset siblings j
              ∧ events a !! x = Some l
              ∧ store s2 l =
                  (if (length siblings =? 0)%nat then store s1 l
                   else mark_top siblings j (store s1 l))).
  { intros j x s1 Hx Hw. apply lookup_seq in Hx as [-> Hj].
    destruct (lookup_lt_is_Some_2 (events a) (idx + j)) as [l Hl]; [lia|].
    destruct (styleTopLevel_spec a siblings (idx + j) j s1 l Hl)
      as (s2 & se & Hrun & Hw2 & Hse & Hwd & Hxo & Hst); [apply Hw|].
    exists s2, se, l. rewrite Nat.add_1_r. done. }
  destruct (forEach_from_blocks a (fun _ => 1%nat) (styleTopLevel a siblings)
              (seq idx (S k)) idx 0 s Hlen) as (s1 & Hrun & Hw & Hloc).
  { intros j x s1 Hx. rewrite (span_unit_take _ _ _ Hx). intros Hw.
    destruct (Hcall j x s1 Hx Hw) as (s2 & se & l & Hrun & Hw2 & _).
    by exists s2. }
  rewrite span_unit, length_seq in Hw.
  exists s1. split; [exact Hrun|]. split; [exact Hw|].
  intros j Hj. fold siblings.
  assert (Hx : seq idx (S k) !! j = Some (idx + j)%nat) by (apply lookup_seq; lia).
  destruct (Hloc j _ Hx) as (t1 & t2 & Hw1 & Hrun2 & Hw2 & Hw3).
  rewrite (span_unit_take _ _ _ Hx) in Hw1, Hw2, Hw3.
  rewrite span_unit, length_seq in Hw3.
  destruct (Hcall j _ t1 Hx Hw1) as (t2' & se & l & Hrun2' & _ & _ & Hse & Hwd & Hxo & Hl & Hst).
  cbn in Hrun2. rewrite Hrun2 in Hrun2'. injection Hrun2' as <-.
  exists se, l. split; [by eapply writes_keeps_entry|].
  split; [done|]. split; [done|]. split; [done|].
  intros Hnd.
  rewrite (writes_keeps_object _ _ _ _ _ _ _ Hw3 Hnd Hl) by lia.
  rewrite Hst. unfold siblings. rewrite length_seq.
  assert (store t1 l = store s l) as ->; [|done].
  apply Hw1. intros (i & Hi & Hli).
  assert (i = idx + j)%nat by (by eapply NoDup_lookup). lia.
Qed.
End TopLevelPhase.

(** ** The child-group phase *)

Section ChildPhase.
Context `{DateMath} {Data : Type}.
Implicit Types (σ : Store Data) (a : Args Data) (e : Event Data).
Implicit Types (s : Layout Data).

Lemma isChild_undefined_parent σ a c : isChild σ None c a = false.
Proof. apply isChild_missing_l, event_at_None. Qed.

(** The reparenting loop stops, after it has adopted the first [k] siblings. *)
Lemma reparent_spec σ a siblings group fuel parentIdx siblingIdx :
  (length siblings - siblingIdx < fuel)%nat →
  ∃ k, reparent fuel σ a siblings group parentIdx siblingIdx
         = Done (if (k =? 0)%nat then parentIdx
                 else siblings !! (siblingIdx + k - 1)%nat)
     ∧ (k = 0 ∨ siblingIdx + k ≤ length siblings)%nat
     ∧ (∀ j, (siblingIdx ≤ j < siblingIdx + k)%nat →
          isChild σ (siblings !! j) (group !! 0%nat) a = true)
     ∧ isChild σ (siblings !! (siblingIdx + k)%nat) (group !! 0%nat) a = false.
Proof.
  revert parentIdx siblingIdx.
  induction fuel as [|fuel IH]; intros parentIdx siblingIdx Hfuel; [lia|].
  cbn [reparent].
  destruct (isChild σ (siblings !! siblingIdx) (group !! 0%nat) a) eqn:Hc.
  - assert (siblingIdx < length siblings)%nat as Hlt.
    { apply lookup_lt_is_Some. destruct (siblings !! siblingIdx); [by eexists|].
      by rewrite isChild_undefined_parent in Hc. }
    destruct (IH (siblings !! siblingIdx) (S siblingIdx)) as (k & -> & Hk & Hall & Hstop);
      [lia|].
    exists (S k). cbn [Nat.eqb].
    split.
    { f_equal. destruct (Nat.eqb_spec k 0) as [->|Hk0].
      - f_equal. lia.
      - f_equal. lia. }
    split; [lia|]. split.
    { intros j Hj. destruct (decide (j = siblingIdx)) as [->|]; [done|].
      apply Hall. lia. }
    by replace (siblingIdx + S k)%nat with (S siblingIdx + k)%nat by lia.
  - exists 0%nat. cbn. rewrite Nat.add_0_r. split; [done|]. split; [lia|].
    split; [intros j; lia|done].
Qed.

(** From the anchor [idx] over its run [idx + 1, ..., idx + n], the loop
    ends on a member [idx + k] of the run. *)
Lemma reparent_run σ a idx n group :
  ∃ k, reparent (S (length (seq (S idx) n))) σ a (seq (S idx) n) group (Some idx) 0
         = Done (Some (idx + k)%nat)
     ∧ (k ≤ n)%nat
     ∧ (∀ j, (idx < j ≤ idx + k)%nat → isChild σ (Some j) (group !! 0%nat) a = true)
     ∧ ((k < n)%nat → isChild σ (Some (S idx + k)%nat) (group !! 0%nat) a = false).
Proof.
  destruct (reparent_spec σ a (seq (S idx) n) group (S (length (seq (S idx) n)))
              (Some idx) 0) as (k & -> & Hk & Hall & Hstop); [lia|].
  rewrite length_seq in Hk. exists k.
  split.
  { f_equal. destruct (Nat.eqb_spec k 0) as [->|Hk0]; [f_equal; lia|].
    rewrite lookup_seq_lt by lia. f_equal. lia. }
  split; [lia|]. split.
  - intros j Hj. specialize (Hall (j - S idx)%nat).
    rewrite lookup_seq_lt in Hall by lia.
    replace (S idx + (j - S idx))%nat with j in Hall by lia. apply Hall. lia.
  - intros Hlt. cbn in Hstop. rewrite lookup_seq_lt in Hstop by lia. done.
Qed.

Lemma styleChild_spec a group gi parentIdx parent eventIdx i s l :
  events a !! eventIdx = Some l →
  length (styledEvents s) = eventIdx →
  array_get (styledEvents s) parentIdx = Some parent →
  ∃ s' se,
    styleChild a group gi parentIdx eventIdx i s = Done s'
    ∧ writes a eventIdx (S eventIdx) s s'
    ∧ styledEvents s' !! eventIdx = Some (Some se)
    ∧ width (style se) = child_width (style parent) group gi
    ∧ xOffset (style se) = child_xOffset (style parent) group gi i
    ∧ store s' l =
        (if (length group =? 1)%nat then store s l
         else mark_child group gi i (store s l)).
Proof.
  intros Hl Hlen Hpar.
  unfold styleChild, child_xOffset, child_width, isOnlyNestedElement.
  subst eventIdx. rewrite Hpar, Hl. cbn [defined mbind outcome_bind].
  destruct (Nat.eqb_spec (length group) 1) as [Hs|Hs]; cbn.
  - destruct (getYStyles (store s) _ a) as [t h] eqn:Hy. cbn.
    rewrite array_set_end. eexists _, _.
    split; [reflexivity|]. split; [by eapply writes_single|].
    cbn. rewrite lookup_app_r by lia. by rewrite Nat.sub_diag.
  - repeat (rewrite (assign_Done _ _ _ _ _ Hl); cbn).
    match goal with |- context [getYStyles ?σ' _ _] =>
      set (σ1 := σ'); destruct (getYStyles σ1 (length (styledEvents s)) a)
        as [t h] eqn:Hy end.
    cbn. rewrite array_set_end. eexists _, _.
    split; [reflexivity|]. split.
    { eapply writes_single; [done..| | |done].
      - intros l'. unfold σ1, update.
        destruct (Nat.eqb_spec l' l) as [->|]; [|done].
        by rewrite !Nat.eqb_refl.
      - intros l' Hne. unfold σ1. by rewrite !update_ne. }
    cbn. rewrite lookup_app_r by lia. rewrite Nat.sub_diag. cbn.
    split; [done|]. split; [done|]. split; [done|].
    unfold σ1. by rewrite !update_eq.
Qed.
Lemma top_facts_keeps a idx k s s1 s2 lo hi :
  top_facts a idx k s s1 → writes a lo hi s1 s2 → (idx + k < lo)%nat →
  top_facts a idx k s s2.
Proof.
  intros Htop Hw Hlo j Hj. destruct (Htop j Hj) as (se & l & Hse & Hwd & Hxo & Hl & Hst).
  exists se, l. split; [by eapply writes_keeps_entry|].
  split; [done|]. split; [done|]. split; [done|].
  intros Hnd. rewrite (writes_keeps_object _ _ _ _ _ _ _ Hw Hnd Hl) by lia. auto.
Qed.

Lemma group_facts_keeps a idx n group gi σ1 s s1 s2 lo hi :
  group_facts a idx n group gi σ1 s s1 → writes a lo hi s1 s2 →
  (∀ x, x ∈ group → x < lo)%nat →
  group_facts a idx n group gi σ1 s s2.
Proof.
  intros (k & parent & Hre & Hk & Hget & Hpar & Hmem) Hw Hlo.
  exists k, parent. split; [done|]. split; [done|]. split; [done|].
  split; [by eapply writes_keeps_entry|].
  intros i x Hx. destruct (Hmem i x Hx) as (se & l & Hse & Hwd & Hxo & Hl & Hst).
  exists se, l. split; [by eapply writes_keeps_entry|].
  split; [done|]. split; [done|]. split; [done|].
  intros Hnd. rewrite (writes_keeps_object _ _ _ _ _ _ _ Hw Hnd Hl); [auto|].
  apply Hlo. by eapply list_elem_of_lookup_2.
Qed.

(** The callback of [childGroups.forEach] on the group [lo, ..., lo + m]. *)
Lemma styleChildGroup_spec a idx n lo m gi s :
  (lo + m < length (events a))%nat →
  length (styledEvents s) = lo →
  (idx + n < lo)%nat →
  (∀ p, (idx ≤ p ≤ idx + n)%nat → ∃ se, styledEvents s !! p = Some (Some se)) →
  ∃ s',
    styleChildGroup a idx (seq (S idx) n) (seq lo (S m)) gi s = Done s'
    ∧ writes a lo (lo + S m) s s'
    ∧ group_facts a idx n (seq lo (S m)) gi (store s) s s'.
Proof.
  intros Hm Hlen Hlo Hpar. set (siblings := seq (S idx) n). set (group := seq lo (S m)).
  unfold styleChildGroup.
  destruct (reparent_run (store s) a idx n group) as (k & Hre & Hk & _).
  fold siblings in Hre. rewrite Hre. cbn [mbind outcome_bind].
  destruct (Hpar (idx + k)%nat) as [parent Hparent]; [lia|].
  assert (Hcall : ∀ j x s1, group !! j = Some x →
            writes a lo (lo + j) s s1 →
            ∃ s2 se l, styleChild a group gi (Some (idx + k)%nat) x j s1 = Done s2
              ∧ writes a (lo + j) (lo + j + 1) s1 s2
              ∧ styledEvents s2 !! x = Some (Some se)
              ∧ width (style se) = child_width (style parent) group gi
              ∧ xOffset (style se) = child_xOffset (style parent) group gi j
              ∧ events a !! x = Some l
              ∧ store s2 l =
                  (if (length group =? 1)%nat then store s1 l
                   else mark_child group gi j (store s1 l))).
  { intros j x s1 Hx Hw. apply lookup_seq in Hx as [-> Hj].
    destruct (lookup_lt_is_Some_2 (events a) (lo + j)) as [l Hl]; [lia|].
    destruct (styleChild_spec a group gi (Some (idx + k)%nat) parent (lo + j) j s1 l Hl)
      as (s2 & se & Hrun & Hw2 & Hse & Hwd & Hxo & Hst); [apply Hw| |].
    { unfold array_get. cbn.
      by rewrite (writes_keeps_entry _ _ _ _ _ _ _ Hw Hparent). }
    exists s2, se, l. rewrite Nat.add_1_r. done. }
  destruct (forEach_from_blocks a (fun _ => 1%nat)
              (styleChild a group gi (Some (idx + k)%nat))
              group lo 0 s Hlen) as (s' & Hrun & Hw & Hloc).
  { intros j x s1 Hx. rewrite (span_unit_take _ _ _ Hx). intros Hw.
    destruct (Hcall j x s1 Hx Hw) as (s2 & se & l & Hrun & Hw2 & _).
    by exists s2. }
  assert (Hgl : length group = S m) by (unfold group; by rewrite length_seq).
  rewrite span_unit, Hgl in Hw.
  exists s'. split; [exact Hrun|]. split; [exact Hw|].
  exists k, parent. split; [done|]. split; [done|].
  split; [unfold array_get; cbn; by rewrite Hparent|].
  split; [by eapply writes_keeps_entry|].
  intros j x Hx.
  destruct (Hloc j _ Hx) as (t1 & t2 & Hw1 & Hrun2 & Hw2 & Hw3).
  rewrite (span_unit_take _ _ _ Hx) in Hw1, Hw2, Hw3.
  rewrite span_unit, Hgl in Hw3.
  destruct (Hcall j _ t1 Hx Hw1)
    as (t2' & se & l & Hrun2' & _ & Hse & Hwd & Hxo & Hl & Hst).
  rewrite Nat.add_0_l, Hrun2' in Hrun2. injection Hrun2 as <-.
  apply lookup_seq in Hx as [-> Hj].
  exists se, l. split; [by eapply writes_keeps_entry|].
  split; [done|]. split; [done|]. split; [done|].
  intros Hnd.
  rewrite (writes_keeps_object _ _ _ _ _ _ _ Hw3 Hnd Hl) by lia.
  rewrite Hst.
  assert (store t1 l = store s l) as ->; [|done].
  apply Hw1. intros (i & Hi & Hli).
  assert (i = lo + j)%nat by (by eapply NoDup_lookup). lia.
Qed.
End ChildPhase.

(** ** One cluster and the driver *)

Section Driver.
Context `{DateMath} {Data : Type}.
Implicit Types (σ : Store Data) (a : Args Data) (e : Event Data).
Implicit Types (s : Layout Data).

Lemma span_cons {A} (size : A → nat) x l :
  span size (x :: l) = (size x + span size l)%nat.
Proof. reflexivity. Qed.

Lemma groups_from_lookup start (groups : list (list nat)) gi g :
  groups_from start groups → groups !! gi = Some g →
  ∃ m, g = seq (start + span length (take gi groups)) (S m)
     ∧ (span length (take gi groups) + S m ≤ span length groups)%nat.
Proof.
  revert start gi. induction groups as [|g' gs IH]; intros start gi Hgs Hg; [done|].
  destruct Hgs as [[m Hm] Hgs]. rewrite span_cons. destruct gi as [|gi]; cbn in Hg.
  - injection Hg as <-. exists m. change (span length (take 0 (g' :: gs))) with 0%nat.
    rewrite Nat.add_0_r. split; [done|]. rewrite Hm at 1. rewrite length_seq. lia.
  - destruct (IH _ _ Hgs Hg) as (m' & -> & Hle). exists m'.
    change (take (S gi) (g' :: gs)) with (g' :: take gi gs). rewrite span_cons.
    split; [f_equal; lia|lia].
Qed.

(** The callbacks of [childGroups.forEach]. *)
Lemma child_phase a idx n groups s :
  groups_from (idx + n + 1) groups →
  (idx + n + 1 + length (concat groups) ≤ length (events a))%nat →
  length (styledEvents s) = (idx + n + 1)%nat →
  (∀ p, (idx ≤ p ≤ idx + n)%nat → ∃ se, styledEvents s !! p = Some (Some se)) →
  ∃ s',
    forEach (styleChildGroup a idx (seq (S idx) n)) groups s = Done s'
    ∧ writes a (idx + n + 1) (idx + n + 1 + length (concat groups)) s s'
    ∧ ∀ gi group, groups !! gi = Some group →
        ∃ s1, writes a (idx + n + 1)
                (idx + n + 1 + span length (take gi groups)) s s1
          ∧ group_facts a idx n group gi (store s1) s1 s'.
Proof.
  intros Hgs Hle Hlen Hpar. rewrite <- span_length_concat in *.
  assert (Hcall : ∀ gi g s1, groups !! gi = Some g →
            writes a (idx + n + 1) (idx + n + 1 + span length (take gi groups)) s s1 →
            ∃ s2, styleChildGroup a idx (seq (S idx) n) g gi s1 = Done s2
              ∧ writes a (idx + n + 1 + span length (take gi groups))
                  (idx + n + 1 + span length (take gi groups) + length g) s1 s2
              ∧ group_facts a idx n g gi (store s1) s1 s2).
  { intros gi g s1 Hg Hw.
    destruct (groups_from_lookup _ _ _ _ Hgs Hg) as (m & -> & Hm).
    rewrite length_seq. apply styleChildGroup_spec.
    - lia.
    - apply Hw.
    - lia.
    - intros p Hp. destruct (Hpar p Hp) as [se Hse]. exists se.
      by eapply writes_keeps_entry. }
  destruct (forEach_from_blocks a length (styleChildGroup a idx (seq (S idx) n))
              groups (idx + n + 1) 0 s Hlen) as (s' & Hrun & Hw & Hloc).
  { intros gi g s1 Hg Hw1. destruct (Hcall gi g s1 Hg Hw1) as (s2 & ? & ? & _).
    by exists s2. }
  exists s'. split; [exact Hrun|]. split; [exact Hw|].
  intros gi g Hg. destruct (Hloc gi g Hg) as (s1 & s2 & Hw1 & Hrun2 & Hw2 & Hw3).
  destruct (Hcall gi g s1 Hg Hw1) as (s2' & Hrun2' & _ & Hfacts).
  rewrite Nat.add_0_l, Hrun2' in Hrun2. injection Hrun2 as <-.
  exists s1. split; [done|].
  eapply group_facts_keeps; [done..|].
  intros x Hx. destruct (groups_from_lookup _ _ _ _ Hgs Hg) as (m & -> & Hm).
  apply elem_of_seq in Hx. rewrite length_seq. lia.
Qed.

(** One iteration of the driver loop, started with the cursor at the end
    of [styledEvents]. *)
Lemma cluster_spec a idx s :
  (idx < length (events a))%nat →
  length (styledEvents s) = idx →
  ∃ n groups ncols s1 s',
    getSiblings (store s) idx a = Done (seq (S idx) n)
    ∧ getChildGroups (store s) idx (idx + n + 1) a = Done (groups, ncols)
    ∧ groups_from (idx + n + 1) groups
    ∧ (idx + n + 1 + length (concat groups) ≤ length (events a))%nat
    ∧ cluster a idx s = Done (s', (idx + n + 1 + length (concat groups))%nat)
    ∧ writes a idx (idx + n + 1) s s1
    ∧ writes a (idx + n + 1) (idx + n + 1 + length (concat groups)) s1 s'
    ∧ top_facts a idx n s s'
    ∧ ∀ gi group, groups !! gi = Some group →
        ∃ s2, writes a (idx + n + 1)
                (idx + n + 1 + span length (take gi groups)) s1 s2
          ∧ group_facts a idx n group gi (store s2) s2 s'.
Proof.
  intros Hidx Hlen.
  destruct (getSiblings_spec (store s) a idx Hidx) as (n & Hsib & Hn & _).
  destruct (getChildGroups_spec (store s) a idx (idx + n + 1))
    as (groups & ncols & Hch & Hgs & Hle); [lia|].
  destruct (topLevel_phase a idx n s Hn Hlen) as (s1 & Htop & Hw1 & Hfacts).
  replace (idx + S n)%nat with (idx + n + 1)%nat in Hw1 by lia.
  destruct (child_phase a idx n groups s1 Hgs Hle) as (s' & Hchild & Hw2 & Hgfacts).
  { apply Hw1. }
  { intros p Hp. destruct (writes_entries _ _ _ _ _ Hw1 p) as (se & Hse & _); [lia|].
    by exists se. }
  exists n, groups, ncols, s1, s'.
  split; [done|]. split; [done|]. split; [done|]. split; [done|].
  split.
  { unfold cluster. rewrite Hsib. cbn [mbind outcome_bind].
    rewrite length_seq, Hch. cbn [mbind outcome_bind].
    rewrite Htop. cbn [mbind outcome_bind]. rewrite Hchild.
    cbn [mbind outcome_bind mret outcome_ret]. rewrite sum_group_lengths.
    do 2 f_equal. lia. }
  split; [done|]. split; [done|].
  split; [|done].
  eapply top_facts_keeps; [done..|lia].
Qed.

Lemma driver_spec a fuel idx s :
  length (styledEvents s) = idx →
  (idx ≤ length (events a))%nat →
  (length (events a) - idx < fuel)%nat →
  ∃ out, driver fuel a idx s = Done out ∧ writes a idx (length (events a)) s out.
Proof.
  revert idx s. induction fuel as [|fuel IH]; intros idx s Hlen Hle Hfuel; [lia|].
  cbn [driver]. destruct (Nat.ltb_spec idx (length (events a))) as [Hlt|Hge].
  - destruct (cluster_spec a idx s Hlt Hlen)
      as (n & groups & ncols & s1 & s' & _ & _ & _ & Hle' & -> & Hw1 & Hw2 & _).
    cbn [mbind outcome_bind].
    destruct (IH _ s' (writes_to _ _ _ _ _ Hw2) Hle') as (out & Hout & Hw3); [lia|].
    exists out. split; [done|].
    eapply writes_trans; [|done]. by eapply writes_trans.
  - exists s. split; [done|]. assert (idx = length (events a)) as Heq by lia.
    rewrite <- Heq. subst idx. apply writes_nil.
Qed.

Lemma visits_writes a s0 idx s :
  length (styledEvents s0) = 0%nat →
  Visits a s0 idx s → writes a 0 idx s0 s ∧ (idx ≤ length (events a))%nat.
Proof.
  intros H0. induction 1 as [|idx s s' idx' Hv [IHw IHle] Hlt Hcl].
  - split; [|lia]. rewrite <- H0. apply writes_nil.
  - destruct (cluster_spec a idx s Hlt (writes_to _ _ _ _ _ IHw))
      as (n & groups & ncols & s1 & s'' & _ & _ & _ & Hle' & Hcl' & Hw1 & Hw2 & _).
    rewrite Hcl in Hcl'. injection Hcl' as <- ->.
    split; [|done]. eapply writes_trans; [done|]. by eapply writes_trans.
Qed.

(** The rest of the run, from a head of the loop to the array returned. *)
Lemma visits_rest a s0 idx s out :
  length (styledEvents s0) = 0%nat →
  driver (S (length (events a))) a 0 s0 = Done out →
  Visits a s0 idx s →
  writes a idx (length (events a)) s out.
Proof.
  intros H0 Hout Hv.
  assert (∃ fuel, (length (events a) - idx < fuel)%nat
                  ∧ driver fuel a idx s = Done out) as (fuel & Hfuel & Hrun).
  { induction Hv as [|idx s s' idx' Hv IH Hlt Hcl].
    - exists (S (length (events a))). split; [lia|done].
    - destruct IH as (fuel & Hfuel & Hrun). destruct fuel as [|fuel]; [lia|].
      cbn [driver] in Hrun. apply Nat.ltb_lt in Hlt as Hlt'. rewrite Hlt', Hcl in Hrun.
      cbn [mbind outcome_bind] in Hrun.
      destruct (visits_writes a s0 idx s H0 Hv) as [Hw _].
      destruct (cluster_spec a idx s Hlt (writes_to _ _ _ _ _ Hw))
        as (n & groups & ncols & s1 & s'' & _ & _ & _ & _ & Hcl' & _).
      rewrite Hcl in Hcl'. injection Hcl' as <- ->.
      exists fuel. split; [lia|done]. }
  destruct (visits_writes a s0 idx s H0 Hv) as [Hw Hle].
  destruct (driver_spec a fuel idx s (writes_to _ _ _ _ _ Hw) Hle Hfuel)
    as (out' & Hrun' & Hw').
  rewrite Hrun in Hrun'. by injection Hrun' as <-.
Qed.
End Driver.

(** ** The whole run *)

Section Run.
Context `{DateMath} {Data : Type}.
Implicit Types (σ : Store Data) (a : Args Data) (e : Event Data) (c : Config Data).
Implicit Types (s out : Layout Data).

Lemma run_spec σ c :
  ∃ out, getStyledEvents σ c = Done out
    ∧ writes (helperArgs σ c) 0 (length (events (helperArgs σ c))) (initial σ) out.
Proof. apply driver_spec; [done|lia|lia]. Qed.

Lemma run_rest σ c out idx s :
  getStyledEvents σ c = Done out →
  Visits (helperArgs σ c) (initial σ) idx s →
  writes (helperArgs σ c) 0 idx (initial σ) s
  ∧ writes (helperArgs σ c) idx (length (events (helperArgs σ c))) s out
  ∧ (idx ≤ length (events (helperArgs σ c)))%nat.
Proof.
  intros Hout Hv.
  destruct (visits_writes (helperArgs σ c) (initial σ) idx s eq_refl Hv) as [Hw Hle].
  split; [done|]. split; [|done].
  by apply (visits_rest (helperArgs σ c) (initial σ)).
Qed.

Lemma sorted_length σ c : length (events (helperArgs σ c)) = length (unsortedEvents c).
Proof. cbn. apply Permutation_length, sort_perm. Qed.

Lemma sorted_NoDup σ c : NoDup (unsortedEvents c) → NoDup (events (helperArgs σ c)).
Proof. intros Hnd. cbn. by rewrite sort_perm. Qed.

Lemma vertical_same_slots a e e' st :
  startSlot a e' = startSlot a e → endSlot a e' = endSlot a e →
  vertical a e st → vertical a e' st.
Proof.
  intros Hs He. unfold vertical, raisedEnd. by rewrite Hs, He.
Qed.

Lemma reads_payload_slots a e e' :
  reads_payload (startAccessor a) → reads_payload (endAccessor a) →
  payload e = payload e' →
  startSlot a e = startSlot a e' ∧ endSlot a e = endSlot a e'.
Proof.
  intros Hs He Hp. unfold startSlot, endSlot, get.
  by rewrite (Hs _ _ Hp), (He _ _ Hp).
Qed.


(** The vertical styles as exact quotients.  With [top] and [height] taken
    as rationals, [top] is [100 * startSlot / totalMin] and [height] is
    [100 * (endSlot - startSlot) / totalMin], the end slot first raised to
    [startSlot + step], so that [height] is at least
    [100 * step / totalMin].  The doubles of the code are these quotients
    rounded, three times for [height], and can lie under that value in the
    last digit: the lemma describes the quotients, not the doubles. *)
Lemma vertical_exact σ c out i se :
  0 < cfg_totalMin c →
  getStyledEvents σ c = Done out →
  styledEvents out !! i = Some (Some se) →
  ∃ l e h,
    events (helperArgs σ c) !! i = Some l
    ∧ payload e = payload (σ l)
    ∧ vertical (helperArgs σ c) e (style se)
    ∧ (reads_payload (cfg_startAccessor c) → reads_payload (cfg_endAccessor c) →
       vertical (helperArgs σ c) (σ l) (style se))
    ∧ height (style se) = Some h
    ∧ (100 * inject_Z (cfg_step c) / inject_Z (cfg_totalMin c) <= h)%Q
    ∧ (0 <= cfg_step c → (0 <= h)%Q).
Proof.
  intros HT Hout Hse. destruct (run_spec σ c) as (out' & Hout' & Hw).
  rewrite Hout in Hout'. injection Hout' as <-.
  destruct (writes_entries _ _ _ _ _ Hw i) as (se' & Hse' & l & e & Hl & _ & Hp & Hv).
  { apply lookup_lt_Some in Hse. rewrite (writes_to _ _ _ _ _ Hw) in Hse. lia. }
  rewrite Hse in Hse'. injection Hse' as <-.
  assert (vertical (helperArgs σ c) e (style se)) as Hvert.
  { apply Hv. cbn. lia. }
  destruct Hvert as (t & h & Ht & Hh & Hteq & Hheq).
  assert (vertical (helperArgs σ c) e (style se)) as Hvert by (by exists t, h).
  exists l, e, h. split; [done|]. split; [done|]. split; [done|].
  split.
  { intros Hrs Hre.
    destruct (reads_payload_slots (helperArgs σ c) e (σ l) Hrs Hre Hp) as [Hs1 Hs2].
    by eapply vertical_same_slots. }
  split; [done|].
  by apply (vertical_floor (helperArgs σ c) e (style se) h).
Qed.
(** A cluster of the run, with the stretches before and after it. *)
Lemma visited_cluster σ c out idx s :
  let a := helperArgs σ c in
  getStyledEvents σ c = Done out →
  Visits a (initial σ) idx s →
  (idx < length (events a))%nat →
  ∃ n groups ncols s1 s',
    getSiblings (store s) idx a = Done (seq (S idx) n)
    ∧ getChildGroups (store s) idx (idx + n + 1) a = Done (groups, ncols)
    ∧ groups_from (idx + n + 1) groups
    ∧ cluster a idx s = Done (s', (idx + n + 1 + length (concat groups))%nat)
    ∧ writes a 0 idx (initial σ) s
    ∧ writes a idx (idx + n + 1) s s1
    ∧ writes a (idx + n + 1) (idx + n + 1 + length (concat groups)) s1 s'
    ∧ writes a (idx + n + 1 + length (concat groups)) (length (events a)) s' out
    ∧ writes a 0 (length (events a)) (initial σ) out
    ∧ top_facts a idx n s s'
    ∧ ∀ gi group, groups !! gi = Some group →
        ∃ s2, writes a (idx + n + 1)
                (idx + n + 1 + span length (take gi groups)) s1 s2
          ∧ group_facts a idx n group gi (store s2) s2 s'.
Proof.
  intros a Hout Hv Hidx.
  destruct (run_rest σ c out idx s Hout Hv) as (Hw0 & _ & _).
  destruct (cluster_spec a idx s Hidx (writes_to _ _ _ _ _ Hw0))
    as (n & groups & ncols & s1 & s' & Hsib & Hch & Hgs & Hle & Hcl & Hw1 & Hw2 & Htop & Hgr).
  assert (Visits a (initial σ) (idx + n + 1 + length (concat groups)) s') as Hv'.
  { by eapply visits_next. }
  destruct (run_rest σ c out _ s' Hout Hv') as (_ & Hw3 & _).
  exists n, groups, ncols, s1, s'. repeat (split; [done|]). split; [|done].
  eapply writes_trans; [exact Hw0|]. eapply writes_trans; [exact Hw1|].
  by eapply writes_trans.
Qed.

Lemma of_nat_S n : of_nat (n + 1) = of_nat (S n).
Proof. by rewrite Nat.add_1_r. Qed.

(** C6. In a cluster of the run whose top-level run has [n] members, the
    member at position [k] of the run is styled at index [idx + k]; for
    [n >= 2] its width is [100 / n], its offset [k * (100 / n)], and the
    event object gets [overlappingCount = n] (the events of the array being
    distinct objects); for [n = 1] the width is 100 and the offset 0. *)
Theorem top_level_partition σ c out idx s siblings k :
  getStyledEvents σ c = Done out →
  Visits (helperArgs σ c) (initial σ) idx s →
  (idx < length (events (helperArgs σ c)))%nat →
  getSiblings (store s) idx (helperArgs σ c) = Done siblings →
  (k ≤ length siblings)%nat →
  ∃ se l,
    (idx :: siblings) !! k = Some (idx + k)%nat
    ∧ styledEvents out !! (idx + k)%nat = Some (Some se)
    ∧ events (helperArgs σ c) !! (idx + k)%nat = Some l
    ∧ event se = Some l
    ∧ ((2 ≤ S (length siblings))%nat →
       width (style se) = (100 / of_nat (S (length siblings)))%Q
       ∧ (xOffset (style se) == of_nat k * (100 / of_nat (S (length siblings))))%Q
       ∧ (NoDup (unsortedEvents c) →
          overlappingCount (store out l) = Some (S (length siblings))))
    ∧ (S (length siblings) = 1%nat →
       width (style se) = 100%Q ∧ xOffset (style se) = 0%Q).
Proof.
  intros Hout Hv Hidx Hsib Hk.
  destruct (visited_cluster σ c out idx s Hout Hv Hidx)
    as (n & groups & ncols & s1 & s' & Hsib' & _ & _ & _ & _ & Hw1 & Hw2 & Hw3 & Hw & Htop & _).
  rewrite Hsib in Hsib'. injection Hsib' as ->. rewrite length_seq in *.
  destruct (Htop k Hk) as (se & l & Hse & Hwd & Hxo & Hl & Hst).
  pose proof (writes_keeps_entry _ _ _ _ _ _ _ Hw3 Hse) as Hse'.
  destruct (writes_entries _ _ _ _ _ Hw (idx + k)%nat) as (se' & Hse'' & l' & e & Hl' & Hev & _).
  { apply lookup_lt_Some in Hl. lia. }
  rewrite Hse' in Hse''. injection Hse'' as <-.
  rewrite Hl in Hl'. injection Hl' as <-.
  exists se, l. split.
  { change (idx :: seq (S idx) n) with (seq idx (S n)). apply lookup_seq. lia. }
  split; [done|]. split; [done|]. split; [done|].
  unfold top_width in Hwd. unfold top_xOffset in Hxo. rewrite length_seq in Hwd, Hxo.
  split.
  - intros Hn. destruct (Nat.eqb_spec n 0) as [->|Hn0]; [lia|].
    rewrite of_nat_S in Hwd, Hxo. split; [done|]. split.
    + rewrite Hxo. destruct (Nat.eqb_spec k 0) as [->|Hk0].
      * unfold of_nat at 1. cbn [Z.of_nat]. ring.
      * ring.
    + intros Hnd. apply sorted_NoDup with (σ := σ) in Hnd.
      rewrite (writes_keeps_object _ _ _ _ _ _ _ Hw3 Hnd Hl) by lia.
      rewrite (Hst Hnd). destruct (Nat.eqb_spec n 0) as [|_]; [done|].
      unfold mark_top. cbn. rewrite length_seq. f_equal. lia.
  - intros Hn. assert (n = 0)%nat as -> by lia. done.
Qed.

(** What the reparenting loop does.  It starts from the anchor and adopts
    the siblings of the run one after the other for as long as each is a
    parent of the first member of the group: it stops at the first sibling
    that is not, and the group is parented to the sibling adopted last (to
    the anchor when there is none).  Siblings after the one the loop
    stopped at are not looked at. *)
Lemma reparent_walk σ a idx siblings group :
  ∃ k,
    (k ≤ length siblings)%nat
    ∧ reparent (S (length siblings)) σ a siblings group (Some idx) 0
      = Done (if (k =? 0)%nat then Some idx else siblings !! (k - 1)%nat)
    ∧ (∀ j, (j < k)%nat → isChild σ (siblings !! j) (group !! 0%nat) a = true)
    ∧ isChild σ (siblings !! k) (group !! 0%nat) a = false.
Proof.
  destruct (reparent_spec σ a siblings group (S (length siblings)) (Some idx) 0)
    as (k & Hre & Hk & Hall & Hstop); [lia|].
  exists k. split; [lia|]. split; [exact Hre|].
  split; [|exact Hstop]. intros j Hj. apply Hall. lia.
Qed.
(** C8. In a cluster of the run, member [i] of a child group of two or
    more events gets the width
    [(parentWidth - 3 * groupIndex) / size - 3 / size] and the offset
    [parentXOffset + width * i + 3 * groupNumber], from the style of the
    parent the group resolved to, and the four layout fields are written
    onto the event; the member of a group of one gets the offset
    [3 * groupNumber] and the width [100 - xOffset], and its object is left
    as it was passed in (the events of the array being distinct objects). *)
Theorem child_group_styles σ c out idx s siblings groups ncols gi group i x :
  getStyledEvents σ c = Done out →
  Visits (helperArgs σ c) (initial σ) idx s →
  (idx < length (events (helperArgs σ c)))%nat →
  getSiblings (store s) idx (helperArgs σ c) = Done siblings →
  getChildGroups (store s) idx (idx + length siblings + 1) (helperArgs σ c)
    = Done (groups, ncols) →
  groups !! gi = Some group →
  group !! i = Some x →
  ∃ p parent se l,
    p ∈ idx :: siblings
    ∧ (∃ σ1, same_payload σ σ1
        ∧ reparent (S (length siblings)) σ1 (helperArgs σ c) siblings group (Some idx) 0
          = Done (Some p))
    ∧ styledEvents out !! p = Some (Some parent)
    ∧ styledEvents out !! x = Some (Some se)
    ∧ events (helperArgs σ c) !! x = Some l
    ∧ event se = Some l
    ∧ ((2 ≤ length group)%nat →
       width (style se)
         = ((width (style parent) - 3 * of_nat gi) / of_nat (length group)
            - 3 / of_nat (length group))%Q
       ∧ xOffset (style se)
         = (xOffset (style parent) + width (style se) * of_nat i
            + 3 * of_nat (gi + 1))%Q
       ∧ (NoDup (unsortedEvents c) →
          overlappingCount (store out l) = Some (length group)
          ∧ groupNumber (store out l) = Some (gi + 1)%nat
          ∧ groupStart (store out l) = Some (i =? 0)%nat
          ∧ groupEnd (store out l) = Some (i =? length group - 1)%nat))
    ∧ (length group = 1%nat →
       xOffset (style se) = (3 * of_nat (gi + 1))%Q
       ∧ width (style se) = (100 - xOffset (style se))%Q
       ∧ (NoDup (unsortedEvents c) → store out l = σ l)).
Proof.
  intros Hout Hv Hidx Hsib Hch Hg Hx.
  destruct (visited_cluster σ c out idx s Hout Hv Hidx)
    as (n & groups' & ncols' & s1 & s' & Hsib' & Hch' & Hgs & _ & Hw0 & Hw1 & Hw2 & Hw3 & Hw
        & _ & Hgr).
  rewrite Hsib in Hsib'. injection Hsib' as ->. rewrite length_seq in Hch.
  rewrite Hch in Hch'. injection Hch' as <- <-.
  destruct (Hgr gi group Hg) as (s2 & Hw12 & k & parent & Hre & Hk & _ & Hpar & Hmem).
  destruct (Hmem i x Hx) as (se & l & Hse & Hwd & Hxo & Hl & Hst).
  pose proof (writes_keeps_entry _ _ _ _ _ _ _ Hw3 Hse) as Hse'.
  destruct (writes_entries _ _ _ _ _ Hw x) as (se' & Hse'' & l' & e & Hl' & Hev & _).
  { apply lookup_lt_Some in Hl. lia. }
  rewrite Hse' in Hse''. injection Hse'' as <-.
  rewrite Hl in Hl'. injection Hl' as <-.
  destruct (groups_from_lookup _ _ _ _ Hgs Hg) as (m & Hgeq & Hm).
  rewrite (span_length_concat groups) in Hm.
  assert (Hglen : length group = S m) by (by rewrite Hgeq, length_seq).
  assert (Hxi : x = (idx + n + 1 + span length (take gi groups) + i)%nat ∧ (i < S m)%nat).
  { rewrite Hgeq in Hx. by apply lookup_seq in Hx. }
  destruct Hxi as [-> Hi].
  assert (Hw02 : writes (helperArgs σ c) 0
            (idx + n + 1 + span length (take gi groups)) (initial σ) s2).
  { eapply writes_trans; [exact Hw0|]. by eapply writes_trans. }
  exists (idx + k)%nat, parent, se, l.
  split.
  { change (idx :: seq (S idx) n) with (seq idx (S n)). apply elem_of_seq. lia. }
  split.
  { exists (store s2). split; [apply Hw02|exact Hre]. }
  split; [exact (writes_keeps_entry _ _ _ _ _ _ _ Hw3 Hpar)|].
  split; [done|]. split; [done|]. split; [done|].
  unfold child_xOffset in Hxo. unfold child_width in Hwd, Hxo.
  assert (Hobj : NoDup (unsortedEvents c) →
            store out l = if (length group =? 1)%nat then store s2 l
                          else mark_child group gi i (store s2 l)).
  { intros Hnd. apply sorted_NoDup with (σ := σ) in Hnd.
    rewrite (writes_keeps_object _ _ _ _ _ _ _ Hw3 Hnd Hl) by lia.
    by rewrite (Hst Hnd). }
  split.
  - intros Hlen. destruct (Nat.eqb_spec (length group) 1) as [|_]; [lia|].
    split; [done|]. split; [by rewrite Hwd|].
    intros Hnd. by rewrite (Hobj Hnd).
  - intros Hlen. destruct (Nat.eqb_spec (length group) 1) as [_|]; [|lia].
    split; [done|]. split; [by rewrite Hwd, Hxo|].
    intros Hnd. rewrite (Hobj Hnd).
    apply sorted_NoDup with (σ := σ) in Hnd.
    apply (writes_frame _ _ _ _ _ Hw02). intros (j & Hj & Hlj).
    assert (j = idx + n + 1 + span length (take gi groups) + i)%nat
      by (by eapply NoDup_lookup).
    lia.
Qed.

(** C10. In a cluster of the run, the parent index every child group
    resolves to is the anchor or a member of the anchor's run, which the
    top-level phase of this iteration has styled: the read of its entry of
    [styledEvents] is defined when the callback of the group starts, and
    the iteration completes.  Past the end of the run the sibling read is
    [undefined], for which [isChild] is false: this stops the loop. *)
Theorem parent_always_styled σ c idx s :
  Visits (helperArgs σ c) (initial σ) idx s →
  (idx < length (events (helperArgs σ c)))%nat →
  ∃ siblings groups ncols s' idx',
    getSiblings (store s) idx (helperArgs σ c) = Done siblings
    ∧ getChildGroups (store s) idx (idx + length siblings + 1) (helperArgs σ c)
      = Done (groups, ncols)
    ∧ cluster (helperArgs σ c) idx s = Done (s', idx')
    ∧ length (styledEvents s) = idx
    ∧ (∀ gi group, groups !! gi = Some group →
         ∃ s2 p parent,
           styledEvents s `prefix_of` styledEvents s2
           ∧ reparent (S (length siblings)) (store s2) (helperArgs σ c) siblings group
               (Some idx) 0 = Done (Some p)
           ∧ p ∈ idx :: siblings
           ∧ (idx ≤ p)%nat
           ∧ array_get (styledEvents s2) (Some p) = Some parent)
    ∧ (∀ σ' j child, (length siblings ≤ j)%nat →
         siblings !! j = None
         ∧ isChild σ' (siblings !! j) child (helperArgs σ c) = false).
Proof.
  intros Hv Hidx.
  destruct (run_spec σ c) as (out & Hout & _).
  destruct (visited_cluster σ c out idx s Hout Hv Hidx)
    as (n & groups & ncols & s1 & s' & Hsib & Hch & Hgs & Hcl & Hw0 & Hw1 & _ & _ & _
        & _ & Hgr).
  exists (seq (S idx) n), groups, ncols, s', (idx + n + 1 + length (concat groups))%nat.
  rewrite length_seq.
  split; [done|]. split; [done|]. split; [exact Hcl|].
  split; [apply Hw0|]. split.
  - intros gi group Hg.
    destruct (Hgr gi group Hg) as (s2 & Hw12 & k & parent & Hre & Hk & Hget & _).
    exists s2, (idx + k)%nat, parent.
    split.
    { etrans; [apply Hw1|apply Hw12]. }
    split; [by rewrite length_seq in Hre|].
    split.
    { change (idx :: seq (S idx) n) with (seq idx (S n)). apply elem_of_seq. lia. }
    split; [lia|done].
  - intros σ' j child Hj.
    assert (seq (S idx) n !! j = None) as Hnone.
    { apply lookup_ge_None_2. by rewrite length_seq. }
    split; [done|]. rewrite Hnone. apply isChild_undefined_parent.
Qed.
End Run.

(** ** Determinism *)

Section Determinism.
Context `{DateMath} {Data : Type}.
Implicit Types (σ : Store Data) (a : Args Data) (e : Event Data) (c : Config Data).
Implicit Types (s out : Layout Data).

Lemma isSibling_slots σ a i j :
  isSibling σ i j a
  = num_lt (Math_abs (num_sub (startAt σ a i) (startAt σ a j))) (Some 30).
Proof.
  unfold isSibling, startAt. by destruct (event_at σ a i), (event_at σ a j).
Qed.

Lemma isChild_slots σ a p q :
  isChild σ p q a
  = if isSibling σ p q a then false else num_gt (endAt σ a p) (startAt σ a q).
Proof. reflexivity. Qed.


Lemma startAt_same_payload σ σ' a idx :
  reads_payload (startAccessor a) → same_payload σ σ' →
  startAt σ' a idx = startAt σ a idx.
Proof.
  intros Hr Hp. unfold startAt, event_at, getSlot, get.
  destruct idx as [i|]; [|done]. cbn. destruct (events a !! i) as [l|]; [|done].
  cbn. by rewrite (Hr (σ' l) (σ l) (Hp l)).
Qed.

Lemma endAt_same_payload σ σ' a idx :
  reads_payload (endAccessor a) → same_payload σ σ' →
  endAt σ' a idx = endAt σ a idx.
Proof.
  intros Hr Hp. unfold endAt, event_at, getSlot, get.
  destruct idx as [i|]; [|done]. cbn. destruct (events a !! i) as [l|]; [|done].
  cbn. by rewrite (Hr (σ' l) (σ l) (Hp l)).
Qed.






Section Alike.
Variables (a1 a2 : Args Data).
Hypotheses (Hstable1 : stable a1) (Hstable2 : stable a2).

Lemma alike_same_payload σ1 σ1' σ2 σ2' :
  alike a1 σ1 a2 σ2 → same_payload σ1 σ1' → same_payload σ2 σ2' →
  alike a1 σ1' a2 σ2'.
Proof using Hstable1 Hstable2.
  intros [Hl Ht Hs Hst He] Hp1 Hp2. destruct Hstable1, Hstable2. split; try done.
  - intros idx.
    by rewrite (startAt_same_payload σ1 σ1'), (startAt_same_payload σ2 σ2').
  - intros idx.
    by rewrite (endAt_same_payload σ1 σ1'), (endAt_same_payload σ2 σ2').
Qed.

Lemma isSibling_alike σ1 σ2 i j :
  alike a1 σ1 a2 σ2 → isSibling σ1 i j a1 = isSibling σ2 i j a2.
Proof. intros Ha. by rewrite !isSibling_slots, !(alike_start _ _ _ _ Ha). Qed.

Lemma isChild_alike σ1 σ2 p q :
  alike a1 σ1 a2 σ2 → isChild σ1 p q a1 = isChild σ2 p q a2.
Proof.
  intros Ha. rewrite !isChild_slots, (isSibling_alike _ _ _ _ Ha).
  by rewrite (alike_start _ _ _ _ Ha), (alike_end _ _ _ _ Ha).
Qed.












End Alike.


Lemma alike_refl a σ : alike a σ a σ.
Proof. by split. Qed.




End Determinism.

(** ** The theorems at sample inputs *)

Section Samples.
Import Sample.
Local Existing Instance UTC.utc.

Example scenario_single :
  styles single = [Some (Some 0%nat, (Some (75 # 2), Some (25 # 6), 100, 0))%Q].
Proof. vm_compute. reflexivity. Qed.

Example scenario_twins :
  styles twins = [Some (Some 0%nat, (Some (75 # 2), Some (25 # 3), 50, 0))%Q;
                  Some (Some 1%nat, (Some (75 # 2), Some (25 # 6), 50, 50))%Q].
Proof. vm_compute. reflexivity. Qed.

Example scenario_nested :
  styles nested = [Some (Some 0%nat, (Some (75 # 2), Some (25 # 3), 100, 0))%Q;
                   Some (Some 1%nat, (Some (325 # 8), Some (25 # 12), 97, 3))%Q].
Proof. vm_compute. reflexivity. Qed.

(** Three events at 09:00, 09:10 and 09:40: the first two are siblings, the
    third is 30 minutes after the second, so it is its child, alone in its
    group. *)
Example scenario_three :
  styles [ev 540 600; ev 550 610; ev 580 640]
  = [Some (Some 0%nat, (Some (75 # 2), Some (25 # 6), 50, 0))%Q;
     Some (Some 1%nat, (Some (1375 # 36), Some (25 # 6), 50, 50))%Q;
     Some (Some 2%nat, (Some (725 # 18), Some (25 # 6), 97, 3))%Q].
Proof. vm_compute. reflexivity. Qed.


(** Two events that start together, the shorter one first in the array of
    the caller: after the call the longer one is first in that array. *)
Lemma sort_order_witness :
  snd (sort_in_place (store_of [ev 540 600; ev 540 660]) (one_array [0; 1]%nat) 0%nat
         start_field end_field) = 0%nat
  ∧ fst (sort_in_place (store_of [ev 540 600; ev 540 660]) (one_array [0; 1]%nat) 0%nat
           start_field end_field) 0%nat = [1; 0]%nat
  ∧ (0 < 1)%nat.
Proof.
  pose proof (sort_order (store_of [ev 540 600; ev 540 660]) start_field end_field
                (one_array [0; 1]%nat) 0%nat) as Horder.
  unfold sort_in_place in Horder. cbn beta iota zeta in Horder.
  destruct Horder as (Hret & _ & _ & _ & _ & Hties & _).
  split; [exact Hret|]. split; [reflexivity|].
  apply (Hties 0%nat 1%nat 1%nat 0%nat); reflexivity.
Defined.

Lemma isSibling_threshold_witness :
  event_at (store_of near) (args near) (Some 0%nat) = Some (ev 540 600)
  ∧ event_at (store_of near) (args near) (Some 1%nat) = Some (ev 569 630)
  ∧ isSibling (store_of near) (Some 0%nat) (Some 1%nat) (args near) = true.
Proof.
  split; [reflexivity|]. split; [reflexivity|].
  apply (isSibling_threshold (store_of near) (args near) 0 1
           (ev 540 600) (ev 569 630) eq_refl eq_refl).
  vm_compute. reflexivity.
Defined.

Lemma isChild_classification_witness :
  event_at (store_of nested) (args nested) (Some 0%nat) = Some (ev 540 660)
  ∧ event_at (store_of nested) (args nested) (Some 1%nat) = Some (ev 585 615)
  ∧ isChild (store_of nested) (Some 0%nat) (Some 1%nat) (args nested) = true.
Proof.
  split; [reflexivity|]. split; [reflexivity|].
  apply (isChild_classification (store_of nested) (args nested) 0 1
           (ev 540 660) (ev 585 615) eq_refl eq_refl).
  - vm_compute. reflexivity.
  - vm_compute. reflexivity.
Defined.
(** The layout a sample run returns, evaluated. *)
Ltac with_run objs n k :=
  let r := eval vm_compute in (getStyledEvents (store_of objs) (day n)) in
  lazymatch r with
  | Done ?out =>
      let Hout := fresh "Hout" in
      assert (Hout : getStyledEvents (store_of objs) (day n) = Done out)
        by (vm_compute; reflexivity);
      k out Hout
  end.

Lemma top_level_partition_witness :
  ∃ out se,
    getStyledEvents (store_of twins) (day 2) = Done out
    ∧ Visits (args twins) (initial (store_of twins)) 0 (initial (store_of twins))
    ∧ (0 < length (events (args twins)))%nat
    ∧ getSiblings (store_of twins) 0 (args twins) = Done [1%nat]
    ∧ (1 ≤ length [1%nat])%nat
    ∧ styledEvents out !! 1%nat = Some (Some se)
    ∧ width (style se) = (100 / of_nat 2)%Q
    ∧ (xOffset (style se) == of_nat 1 * (100 / of_nat 2))%Q.
Proof.
  with_run twins 2%nat ltac:(fun out Hout =>
    exists out;
    destruct (top_level_partition (store_of twins) (day 2) out 0
                (initial (store_of twins)) [1%nat] 1 Hout
                (visits_first _ _) (Nat.lt_0_succ 1) eq_refl (le_n 1))
      as (se & l & _ & Hse & _ & _ & Hrun & _);
    destruct (Hrun (le_n 2)) as (Hw & Hx & _);
    exists se; split; [exact Hout|]; split; [constructor|];
    split; [apply Nat.lt_0_succ|];
    split; [reflexivity|]; split; [apply le_n|];
    split; [exact Hse|]; split; [exact Hw|exact Hx]).
Defined.

Lemma child_group_styles_witness :
  ∃ out parent se,
    getStyledEvents (store_of overlooked) (day 5) = Done out
    ∧ Visits (args overlooked) (initial (store_of overlooked)) 0
        (initial (store_of overlooked))
    ∧ (0 < length (events (args overlooked)))%nat
    ∧ getSiblings (store_of overlooked) 0 (args overlooked) = Done [1; 2]%nat
    ∧ getChildGroups (store_of overlooked) 0 3 (args overlooked)
      = Done ([[3; 4]], 2)%nat
    ∧ styledEvents out !! 4%nat = Some (Some se)
    ∧ width (style se)
      = ((width (style parent) - 3 * of_nat 0) / of_nat 2 - 3 / of_nat 2)%Q
    ∧ xOffset (style se)
      = (xOffset (style parent) + width (style se) * of_nat 1 + 3 * of_nat (0 + 1))%Q.
Proof.
  with_run overlooked 5%nat ltac:(fun out Hout =>
    exists out;
    destruct (child_group_styles (store_of overlooked) (day 5) out 0
                (initial (store_of overlooked)) [1; 2]%nat [[3; 4]]%nat 2 0
                [3; 4]%nat 1 4 Hout (visits_first _ _)
                (Nat.lt_0_succ 4) eq_refl eq_refl eq_refl eq_refl)
      as (p & parent & se & l & _ & _ & _ & Hse & _ & _ & Hmany & _);
    destruct (Hmany (le_n 2)) as (Hw & Hx & _);
    exists parent, se; split; [exact Hout|]; split; [constructor|];
    split; [apply Nat.lt_0_succ|]; split; [reflexivity|]; split; [reflexivity|];
    split; [exact Hse|]; split; [exact Hw|exact Hx]).
Defined.

Lemma parent_always_styled_witness :
  Visits (args overlooked) (initial (store_of overlooked)) 0
    (initial (store_of overlooked))
  ∧ (0 < length (events (args overlooked)))%nat
  ∧ ∃ s' idx', cluster (args overlooked) 0 (initial (store_of overlooked))
               = Done (s', idx').
Proof.
  split; [constructor|]. split; [apply Nat.lt_0_succ|].
  destruct (parent_always_styled (store_of overlooked) (day 5) 0
              (initial (store_of overlooked)) (visits_first _ _) (Nat.lt_0_succ 4))
    as (siblings & groups & ncols & s' & idx' & _ & _ & Hcl & _).
  exists s', idx'. exact Hcl.
Defined.

Lemma start_field_reads_payload : reads_payload start_field.
Proof. intros e e' Hp. unfold start_field. by rewrite Hp. Qed.

Lemma end_field_reads_payload : reads_payload end_field.
Proof. intros e e' Hp. unfold end_field. by rewrite Hp. Qed.




(** C7.  The code misses what its documentation and the spec say: a child
    group moves "as far away from its original parent as possible", to a
    sibling that "is also a parent" to it.  Here the run of the anchor 0 is
    [0, 1, 2] and the child group is [3, 4]; sibling 2 is a parent of event
    3, but sibling 1 is not, so the loop stops at once and the group stays
    with the anchor 0, not with sibling 2, the latest sibling that contains
    it.  The offsets of the group are those under the anchor. *)
Lemma reparent_stops_early :
  getSiblings (store_of overlooked) 0 (args overlooked) = Done [1; 2]%nat
  ∧ getChildGroups (store_of overlooked) 0 3 (args overlooked) = Done ([[3; 4]], 2)%nat
  ∧ isChild (store_of overlooked) (Some 1%nat) (Some 3%nat) (args overlooked) = false
  ∧ isChild (store_of overlooked) (Some 2%nat) (Some 3%nat) (args overlooked) = true
  ∧ reparent 3 (store_of overlooked) (args overlooked) [1; 2]%nat [3; 4]%nat
      (Some 0%nat) 0 = Done (Some 0%nat)
  ∧ map (option_map (fun r => snd (snd r))) (styles overlooked)
    = [Some 0; Some (100 # 3); Some (200 # 3); Some 3; Some (109 # 6)]%Q.
Proof. vm_compute. repeat split; reflexivity. Qed.
End Samples.

(** * Further properties of the code *)

(** ** [dates.js]: [diff], [total], [merge] *)

Section DiffFacts.
Context `{DateMath}.

Lemma Math_round_nonneg (x : Q) : (0 <= x)%Q → 0 <= Math_round x.
Proof.
  intros Hx. unfold Math_round. change 0 with (Qfloor 0). apply Qfloor_resp_le.
  apply Qle_trans with x; [done|]. rewrite <- (Qplus_0_r x) at 1.
  apply Qplus_le_r. done.
Qed.

Lemma scaled_distance_nonneg a b unit : 0 <= scaled_distance a b unit.
Proof. apply Math_round_nonneg, Qabs_nonneg. Qed.

Lemma scaled_distance_sym a b unit : scaled_distance a b unit = scaled_distance b a unit.
Proof. unfold scaled_distance. by rewrite Qabs_Qminus. Qed.

Lemma scaled_distance_same a unit : scaled_distance a a unit = 0.
Proof.
  unfold scaled_distance, Math_round.
  assert (Qabs (inject_Z (startOf a unit) / inject_Z (MILLI unit)
                - inject_Z (startOf a unit) / inject_Z (MILLI unit)) + (1 # 2)
          == 1 # 2)%Q as ->; [|reflexivity].
  assert (inject_Z (startOf a unit) / inject_Z (MILLI unit)
          - inject_Z (startOf a unit) / inject_Z (MILLI unit) == 0)%Q as -> by ring.
  reflexivity.
Qed.

Lemma add_minutes_0 d : add_minutes d 0 = d.
Proof. unfold add_minutes. lia. Qed.

Lemma diff_sym dateA dateB unit : diff dateA dateB unit = diff dateB dateA unit.
Proof.
  unfold diff. destruct unit.
  1: { rewrite <- Z.abs_opp. f_equal. lia. }
  all: destruct (Z.ltb_spec (zone_offset dateA - zone_offset dateB) 0),
         (Z.ltb_spec (zone_offset dateB - zone_offset dateA) 0); try lia.
  all: first
    [ replace (- (zone_offset dateA - zone_offset dateB))
        with (zone_offset dateB - zone_offset dateA) by lia;
      apply scaled_distance_sym
    | replace (- (zone_offset dateB - zone_offset dateA))
        with (zone_offset dateA - zone_offset dateB) by lia;
      apply scaled_distance_sym
    | replace (zone_offset dateA - zone_offset dateB) with 0 by lia;
      replace (zone_offset dateB - zone_offset dateA) with 0 by lia;
      rewrite !add_minutes_0; apply scaled_distance_sym ].
Qed.

Lemma diff_nonneg dateA dateB unit : 0 <= diff dateA dateB unit.
Proof.
  unfold diff. destruct unit; [lia|..].
  all: destruct (_ <? 0); apply scaled_distance_nonneg.
Qed.

Lemma diff_same dateA unit : diff dateA dateA unit = 0.
Proof.
  unfold diff. destruct unit; [lia|..].
  all: rewrite Z.sub_diag; cbn [Z.ltb Z.compare];
    rewrite add_minutes_0; apply scaled_distance_same.
Qed.

(** X2. [diff] does not depend on the order of its two dates, for any unit
    argument: the two calls give the same number, or [NaN] both, although
    the code moves a different one of the dates by the difference of the
    zone offsets, according to the sign of that difference. *)
Theorem diff_symmetric dateA dateB unit :
  diff_in dateA dateB unit = diff_in dateB dateA unit.
Proof.
  destruct unit as [|unit|]; cbn [diff_in]; [|by rewrite diff_sym|done].
  rewrite <- Z.abs_opp. do 2 f_equal. lia.
Qed.

(** X3. [diff] is a number exactly for no unit, for milliseconds and for
    the units of [MILLI], and [NaN] for any other unit; the number is never
    negative, and it is 0 between a date and itself. *)
Theorem diff_distance dateA dateB unit :
  (diff_in dateA dateB unit = None ↔ unit = OtherUnit)
  ∧ (∀ n, diff_in dateA dateB unit = Some n → 0 <= n)
  ∧ (unit ≠ OtherUnit → diff_in dateA dateA unit = Some 0).
Proof.
  split; [|split].
  - by destruct unit.
  - intros n. destruct unit as [|unit|]; cbn [diff_in]; intros Hn; [| |done].
    + injection Hn as <-. lia.
    + injection Hn as <-. apply diff_nonneg.
  - intros Hunit. destruct unit as [|unit|]; cbn [diff_in]; [| |done].
    + by rewrite Z.sub_diag.
    + by rewrite diff_same.
Qed.

(** X1. For a window that is not negative, [positionFromDate] returns a
    slot of the window: between 0 and [total], for a date and for [null],
    whatever the clock shows. *)
Theorem positionFromDate_range clock date min total :
  0 <= total → 0 <= positionFromDate clock date min total <= total.
Proof.
  intros Ht. unfold positionFromDate.
  destruct (startsBefore clock date min); [lia|].
  destruct (merge clock (Some min) date) as [merged|]; [|lia].
  pose proof (diff_nonneg min merged Minutes). lia.
Qed.

(** X5. With getters and setters that keep [DateLaws], [merge(date, time)]
    of two dates is a date that has the hours, minutes, seconds and
    milliseconds of [time], and starts the same day as [date]. *)
Theorem merge_fields clock date time :
  DateLaws _ →
  ∃ merged,
    merge clock (Some date) (Some time) = Some merged
    ∧ hours merged = hours time
    ∧ minutes merged = minutes time
    ∧ seconds merged = seconds time
    ∧ milliseconds merged = milliseconds time
    ∧ eqTime merged time = true
    ∧ isJustDate merged = isJustDate time
    ∧ startOf merged Day = startOf date Day.
Proof.
  intros L.
  exists (set_milliseconds (set_seconds (set_minutes
            (set_hours (startOf date Day) (hours time)) (minutes time))
            (seconds time)) (milliseconds time)).
  split; [reflexivity|].
  pose proof (hours_range L time) as Hh. pose proof (minutes_range L time) as Hm.
  pose proof (seconds_range L time) as Hs.
  pose proof (milliseconds_range L time) as Hms.
  set (d0 := startOf date Day).
  assert (Eh : hours (set_milliseconds (set_seconds (set_minutes
                 (set_hours d0 (hours time)) (minutes time)) (seconds time))
                 (milliseconds time)) = hours time).
  { rewrite (hours_set_milliseconds L), (hours_set_seconds L),
      (hours_set_minutes L), (hours_set_hours L); done. }
  assert (Em : minutes (set_milliseconds (set_seconds (set_minutes
                 (set_hours d0 (hours time)) (minutes time)) (seconds time))
                 (milliseconds time)) = minutes time).
  { rewrite (minutes_set_milliseconds L), (minutes_set_seconds L),
      (minutes_set_minutes L); done. }
  assert (Es : seconds (set_milliseconds (set_seconds (set_minutes
                 (set_hours d0 (hours time)) (minutes time)) (seconds time))
                 (milliseconds time)) = seconds time).
  { rewrite (seconds_set_milliseconds L), (seconds_set_seconds L); done. }
  assert (Ems : milliseconds (set_milliseconds (set_seconds (set_minutes
                 (set_hours d0 (hours time)) (minutes time)) (seconds time))
                 (milliseconds time)) = milliseconds time).
  { rewrite (milliseconds_set_milliseconds L); done. }
  split; [done|]. split; [done|]. split; [done|]. split; [done|].
  split; [unfold eqTime; by rewrite Eh, Em, Es, !Z.eqb_refl|].
  split; [unfold isJustDate; by rewrite Eh, Em, Es, Ems|].
  rewrite (day_set_milliseconds L), (day_set_seconds L),
    (day_set_minutes L), (day_set_hours L) by done.
  apply (day_startOf L).
Qed.
End DiffFacts.

(** X4. The [switch] of [total] falls through to the divisors of the table
    [MILLI] for seconds, minutes, hours and days, to seven days for a week,
    and leaves 1 for any other unit: [total] of [n] units is [n]. *)
Theorem total_divisors (ms n : Z) :
  total ms (Of Seconds) = (inject_Z ms / inject_Z (MILLI Seconds))%Q
  ∧ total ms (Of Minutes) = (inject_Z ms / inject_Z (MILLI Minutes))%Q
  ∧ total ms (Of Hours) = (inject_Z ms / inject_Z (MILLI Hours))%Q
  ∧ total ms (Of Day) = (inject_Z ms / inject_Z (MILLI Day))%Q
  ∧ total ms Week = (inject_Z ms / inject_Z (7 * MILLI Day))%Q
  ∧ total ms (Of Milliseconds) = (inject_Z ms / 1)%Q
  ∧ (∀ unit, unit ≠ Milliseconds →
       total (n * MILLI unit) (Of unit) == inject_Z n)%Q.
Proof.
  repeat (split; [reflexivity|]).
  intros unit Hu.
  assert (total (n * MILLI unit) (Of unit)
          = (inject_Z (n * MILLI unit) / inject_Z (MILLI unit))%Q) as ->.
  { destruct unit; [done|reflexivity..]. }
  rewrite inject_Z_mult. field.
  destruct unit; [done|..]; unfold Qeq; cbn; lia.
Qed.

(** ** The classifier and the grouper *)

Section GrouperFacts.
Context `{DateMath} {Data : Type}.
Implicit Types (σ : Store Data) (a : Args Data) (e : Event Data).



(** X8. [getSiblings] returns, for every index, the longest run of
    consecutive indices after [idx] that are all siblings of [idx]; the run
    stays inside the array, and it is empty when [idx] is past the end. *)
Theorem getSiblings_run σ a idx :
  ∃ k, getSiblings σ idx a = Done (seq (S idx) k)
    ∧ (∀ j, (idx < j ≤ idx + k)%nat → isSibling σ (Some idx) (Some j) a = true)
    ∧ isSibling σ (Some idx) (Some (S idx + k)%nat) a = false
    ∧ ((0 < k)%nat → (idx + k < length (events a))%nat)
    ∧ ((length (events a) ≤ idx)%nat → k = 0%nat).
Proof.
  unfold getSiblings.
  destruct (sibling_run_spec σ a idx (S (length (events a))) idx [])
    as (k & -> & Hall & Hstop & _); [lia|].
  exists k. cbn. split; [done|].
  assert (Hin : ∀ j, (idx < j ≤ idx + k)%nat →
            isSibling σ (Some idx) (Some j) a = true).
  { intros j Hj. apply Hall. lia. }
  split; [done|]. split; [done|].
  assert (Hk : (0 < k)%nat → (idx + k < length (events a))%nat).
  { intros Hk. apply (isSibling_true_lt σ a (Some idx)). apply Hin. lia. }
  split; [done|]. intros Hidx. destruct k; [done|]. specialize (Hk ltac:(lia)). lia.
Qed.

Lemma getChildGroups_loop_groups σ a idx fuel nextIdx groups n :
  (length (events a) - nextIdx < fuel)%nat →
  ∃ new,
    getChildGroups_loop fuel σ a idx nextIdx groups n
      = Done (groups ++ new, Nat.max n (max_list (length <$> new)))
    ∧ groups_from nextIdx new
    ∧ Forall (is_child_group σ a idx) new
    ∧ isChild σ (Some idx) (Some (nextIdx + length (concat new))%nat) a = false
    ∧ (new ≠ [] → (nextIdx + length (concat new) ≤ length (events a))%nat).
Proof.
  revert nextIdx groups n.
  induction fuel as [|fuel IH]; intros nextIdx groups n Hfuel; [lia|].
  cbn [getChildGroups_loop].
  destruct (isChild σ (Some idx) (Some nextIdx) a) eqn:Hc.
  - pose proof (isChild_true_lt _ _ _ _ Hc) as Hlt.
    destruct (sibling_run_spec σ a nextIdx (S (length (events a))) nextIdx [nextIdx])
      as (k & -> & Hall & Hstop & Hin); [lia|]. specialize (Hin Hlt).
    cbn [mbind outcome_bind].
    change ([nextIdx] ++ seq (S nextIdx) k) with (seq nextIdx (S k)).
    destruct (IH (S nextIdx + k)%nat (groups ++ [seq nextIdx (S k)])
                (Nat.max n (length (seq nextIdx (S k)))))
      as (new & -> & Hgs & Hfa & Hend & Hle); [lia|].
    exists (seq nextIdx (S k) :: new).
    assert (Hlen : length (seq nextIdx (S k)) = S k) by apply length_seq.
    split.
    { rewrite <- app_assoc. generalize (seq nextIdx (S k)). intros g.
      cbn [app fmap list_fmap max_list]. do 2 f_equal. unfold id. lia. }
    split.
    { cbn [groups_from]. split; [by exists k|].
      by replace (nextIdx + length (seq nextIdx (S k)))%nat with (S nextIdx + k)%nat by lia. }
    split.
    { constructor; [|done]. exists nextIdx, k. split; [done|]. split; [done|].
      split.
      - intros j Hj. apply Hall. lia.
      - by replace (nextIdx + k + 1)%nat with (S nextIdx + k)%nat by lia. }
    cbn [concat]. rewrite length_app, Hlen.
    split.
    { by replace (nextIdx + (S k + length (concat new)))%nat
        with (S nextIdx + k + length (concat new))%nat by lia. }
    intros _. destruct new as [|g new'].
    + cbn. lia.
    + specialize (Hle ltac:(done)). lia.
  - exists []. rewrite app_nil_r. cbn. rewrite Nat.max_0_r, Nat.add_0_r.
    split; [done|]. split; [done|]. split; [done|]. split; [done|]. done.
Qed.

(** X9. [getChildGroups] returns, from any start index, the child groups
    that follow one another from that index: each begins with a child of
    [idx] and goes on with the siblings of that child, none is empty, all
    lie inside the array, and the index after the last group is not a
    child of [idx]; [nbrOfChildColumns] is the size of the largest group. *)
Theorem getChildGroups_groups σ a idx nextIdx :
  ∃ groups,
    getChildGroups σ idx nextIdx a = Done (groups, max_list (length <$> groups))
    ∧ groups_from nextIdx groups
    ∧ Forall (is_child_group σ a idx) groups
    ∧ concat groups = seq nextIdx (length (concat groups))
    ∧ isChild σ (Some idx) (Some (nextIdx + length (concat groups))%nat) a = false
    ∧ (groups ≠ [] → (nextIdx + length (concat groups) ≤ length (events a))%nat).
Proof.
  unfold getChildGroups.
  destruct (getChildGroups_loop_groups σ a idx (S (length (events a))) nextIdx [] 0)
    as (groups & -> & Hgs & Hfa & Hend & Hle); [lia|].
  exists groups. cbn [app Nat.max]. split; [done|]. split; [done|]. split; [done|].
  split; [by apply groups_from_concat|]. done.
Qed.

(** X10. [sort] leaves an array it has sorted as it is: sorting twice gives
    what sorting once gives. *)
Theorem sort_idempotent σ (startAccessor endAccessor : Accessor Data) (l : list loc) :
  sort σ (sort σ l startAccessor endAccessor) startAccessor endAccessor
  = sort σ l startAccessor endAccessor.
Proof. apply sort_fixed, sort_sorted. Qed.
End GrouperFacts.

(** ** The driver: what it touches and how it cuts the array *)

Section DriverFacts.
Context `{DateMath} {Data : Type}.
Implicit Types (σ : Store Data) (a : Args Data) (e : Event Data) (c : Config Data).
Implicit Types (s out : Layout Data) (v w : nat * Layout Data).

(** X11. [getStyledEvents] changes layout fields only, and only on the
    objects of the array: the caller's fields of every object stay as they
    are, and an object that is not in the array is not changed at all. *)
Theorem getStyledEvents_footprint σ c out :
  getStyledEvents σ c = Done out →
  same_payload σ (store out)
  ∧ ∀ l, l ∉ unsortedEvents c → store out l = σ l.
Proof.
  intros Hout. destruct (run_spec σ c) as (out' & Hout' & Hw).
  rewrite Hout in Hout'. injection Hout' as <-.
  split; [apply Hw|]. intros l Hl. apply (writes_frame _ _ _ _ _ Hw).
  intros (i & _ & Hi). apply Hl. rewrite <- (sort_perm σ (cfg_startAccessor c)
    (cfg_endAccessor c) (unsortedEvents c)). by eapply list_elem_of_lookup_2.
Qed.

Lemma next_head_functional a v w1 w2 : next_head a v w1 → next_head a v w2 → w1 = w2.
Proof.
  intros [_ H1] [_ H2]. rewrite H1 in H2. destruct w1, w2. cbn in H2. congruence.
Qed.

Lemma rtc_linear {A} (R : relation A) (x y z : A) :
  (∀ p q1 q2 : A, R p q1 → R p q2 → q1 = q2) →
  rtc R x y → rtc R x z → rtc R y z ∨ rtc R z y.
Proof.
  intros Hfun Hxy. revert z. induction Hxy as [x|x x' y Hx Hxy IH]; intros z Hxz.
  - by left.
  - inversion Hxz as [|? mid ? Hx' Hxz']; subst.
    + right. by econstructor.
    + rewrite <- (Hfun _ _ _ Hx Hx') in Hxz'. by apply IH.
Qed.

Lemma visits_rtc a s0 idx s :
  Visits a s0 idx s → rtc (next_head a) (0%nat, s0) (idx, s).
Proof.
  induction 1 as [|idx s s' idx' Hv IH Hlt Hcl]; [done|].
  eapply rtc_r; [exact IH|]. by split.
Qed.

Lemma next_head_visits a s0 v w :
  length (styledEvents s0) = 0%nat →
  Visits a s0 v.1 v.2 → next_head a v w →
  Visits a s0 w.1 w.2 ∧ (v.1 < w.1 ≤ length (events a))%nat.
Proof.
  intros H0 Hv [Hlt Hcl]. split; [by eapply visits_next|].
  destruct (visits_writes a s0 _ _ H0 Hv) as [Hw _].
  destruct (cluster_spec a v.1 v.2 Hlt (writes_to _ _ _ _ _ Hw))
    as (n & groups & ncols & s1 & s' & _ & _ & _ & Hle & Hcl' & _).
  rewrite Hcl in Hcl'. injection Hcl' as _ ->. lia.
Qed.

Lemma rtc_heads_le a s0 v w :
  length (styledEvents s0) = 0%nat →
  Visits a s0 v.1 v.2 → rtc (next_head a) v w → (v.1 ≤ w.1)%nat.
Proof.
  intros H0 Hv Hvw. induction Hvw as [v|v v' w Hstep Hvw IH]; [done|].
  destruct (next_head_visits a s0 v v' H0 Hv Hstep) as [Hv' Hlt].
  specialize (IH Hv'). lia.
Qed.

Lemma heads_cover a s0 i n idx s :
  length (styledEvents s0) = 0%nat →
  Visits a s0 idx s → (idx ≤ i < length (events a))%nat →
  (length (events a) - idx ≤ n)%nat →
  ∃ idx1 s1 s1' idx1',
    Visits a s0 idx1 s1 ∧ (idx1 < length (events a))%nat
    ∧ cluster a idx1 s1 = Done (s1', idx1')
    ∧ (idx1 ≤ i < idx1')%nat.
Proof.
  intros H0. revert idx s. induction n as [|n IH]; intros idx s Hv Hi Hn; [lia|].
  destruct (visits_writes a s0 idx s H0 Hv) as [Hw _].
  assert (Hlt : (idx < length (events a))%nat) by lia.
  destruct (cluster_spec a idx s Hlt (writes_to _ _ _ _ _ Hw))
    as (k & groups & ncols & s1 & s' & _ & _ & _ & Hle & Hcl & _).
  destruct (decide (i < idx + k + 1 + length (concat groups))%nat) as [Hin|Hout].
  - exists idx, s, s', (idx + k + 1 + length (concat groups))%nat.
    split; [done|]. split; [done|]. split; [exact Hcl|]. lia.
  - apply (IH (idx + k + 1 + length (concat groups))%nat s');
      [by eapply visits_next|lia|lia].
Qed.

(** X12. The iterations of the driver cut the sorted array into clusters:
    every index of the array lies in the cluster of exactly one iteration,
    which runs from the cursor of that iteration up to the next cursor. *)
Theorem clusters_partition σ c i :
  (i < length (unsortedEvents c))%nat →
  ∃ idx s s' idx',
    Visits (helperArgs σ c) (initial σ) idx s
    ∧ cluster (helperArgs σ c) idx s = Done (s', idx')
    ∧ (idx ≤ i < idx')%nat
    ∧ (idx' ≤ length (unsortedEvents c))%nat
    ∧ ∀ idx2 s2 s2' idx2',
        Visits (helperArgs σ c) (initial σ) idx2 s2 →
        (idx2 < length (events (helperArgs σ c)))%nat →
        cluster (helperArgs σ c) idx2 s2 = Done (s2', idx2') →
        (idx2 ≤ i < idx2')%nat →
        idx2 = idx ∧ s2 = s.
Proof.
  intros Hi. rewrite <- (sorted_length σ c) in Hi |- *.
  set (a := helperArgs σ c) in *.
  destruct (heads_cover a (initial σ) i (length (events a)) 0 (initial σ) eq_refl
              (visits_first _ _)) as (idx & s & s' & idx' & Hv & Hlt & Hcl & Hin);
    [lia|lia|].
  assert (Hstep : next_head a (idx, s) (idx', s')) by (by split).
  destruct (next_head_visits a (initial σ) (idx, s) (idx', s') eq_refl Hv Hstep)
    as [Hv' Hle].
  exists idx, s, s', idx'. split; [done|]. split; [done|]. split; [done|].
  split; [cbn [fst snd] in Hle; lia|].
  intros idx2 s2 s2' idx2' Hv2 Hlt2 Hcl2 Hin2.
  assert (Hstep2 : next_head a (idx2, s2) (idx2', s2')) by (by split).
  destruct (next_head_visits a (initial σ) (idx2, s2) (idx2', s2') eq_refl Hv2 Hstep2)
    as [Hv2' _].
  destruct (rtc_linear (next_head a) _ _ _ (next_head_functional a)
              (visits_rtc _ _ _ _ Hv) (visits_rtc _ _ _ _ Hv2)) as [Hr|Hr].
  - inversion Hr as [|? v' ? Hs Hr']; subst; [done|].
    rewrite (next_head_functional a _ _ _ Hs Hstep) in Hr'.
    pose proof (rtc_heads_le a (initial σ) (idx', s') (idx2, s2) eq_refl Hv' Hr') as Hle'.
    cbn [fst snd] in Hle'. lia.
  - inversion Hr as [|? v' ? Hs Hr']; subst; [done|].
    rewrite (next_head_functional a _ _ _ Hs Hstep2) in Hr'.
    pose proof (rtc_heads_le a (initial σ) (idx2', s2') (idx, s) eq_refl Hv2' Hr') as Hle'.
    cbn [fst snd] in Hle'. lia.
Qed.
End DriverFacts.

(** ** The styles and fields of a cluster *)

Section ClusterFacts.
Context `{DateMath} {Data : Type}.
Implicit Types (σ : Store Data) (a : Args Data) (e : Event Data) (c : Config Data).
Implicit Types (s out : Layout Data).

Lemma of_nat_succ n : (of_nat (S n) == of_nat n + 1)%Q.
Proof. unfold of_nat. by rewrite Nat2Z.inj_succ, <- Z.add_1_r, inject_Z_plus. Qed.

Lemma of_nat_add_1 n : (of_nat (n + 1) == of_nat n + 1)%Q.
Proof. rewrite Nat.add_1_r. apply of_nat_succ. Qed.

Lemma of_nat_pos n : (0 < n)%nat → (0 < of_nat n)%Q.
Proof. intros Hn. unfold of_nat, Qlt. cbn. lia. Qed.

(** X13. In a cluster of the run over distinct objects, the top-level
    phase marks the first member of a run of two or more with
    [groupStart], the last with [groupEnd], the others with neither, and
    leaves [groupNumber] as it was; the event of a run of one is not
    written to at all. *)
Theorem top_level_fields σ c out idx s siblings k :
  getStyledEvents σ c = Done out →
  Visits (helperArgs σ c) (initial σ) idx s →
  (idx < length (events (helperArgs σ c)))%nat →
  getSiblings (store s) idx (helperArgs σ c) = Done siblings →
  (k ≤ length siblings)%nat →
  NoDup (unsortedEvents c) →
  ∃ l,
    events (helperArgs σ c) !! (idx + k)%nat = Some l
    ∧ (siblings ≠ [] →
       groupStart (store out l) = Some (k =? 0)%nat
       ∧ groupEnd (store out l) = Some (k =? length siblings)%nat
       ∧ groupNumber (store out l) = groupNumber (σ l))
    ∧ (siblings = [] → store out l = σ l).
Proof.
  intros Hout Hv Hidx Hsib Hk Hnd. apply sorted_NoDup with (σ := σ) in Hnd.
  destruct (visited_cluster σ c out idx s Hout Hv Hidx)
    as (n & groups & ncols & s1 & s' & Hsib' & _ & _ & _ & Hw0 & _ & _ & Hw3 & _ & Htop & _).
  rewrite Hsib in Hsib'. injection Hsib' as ->. rewrite length_seq in *.
  destruct (Htop k Hk) as (se & l & _ & _ & _ & Hl & Hst).
  assert (Hfinal : store out l = if (n =? 0)%nat then σ l
                                 else mark_top (seq (S idx) n) k (σ l)).
  { rewrite (writes_keeps_object _ _ _ _ _ _ _ Hw3 Hnd Hl) by lia. rewrite (Hst Hnd).
    assert (store s l = σ l) as ->; [|done].
    apply (writes_frame _ _ _ _ _ Hw0). intros (j & Hj & Hlj).
    assert (j = idx + k)%nat by (by eapply NoDup_lookup). lia. }
  exists l. split; [done|]. split.
  - intros Hne. destruct (Nat.eqb_spec n 0) as [->|_]; [done|].
    rewrite Hfinal. unfold mark_top. cbn. by rewrite length_seq.
  - intros Hnil. apply (f_equal length) in Hnil. rewrite length_seq in Hnil.
    cbn in Hnil. subst n. done.
Qed.

Lemma Qpos_scaled (w d x : Q) : (0 < d)%Q → (w * d == x)%Q → (0 < w)%Q ↔ (0 < x)%Q.
Proof.
  intros Hd Heq. rewrite <- Heq. split.
  - intros Hw. by apply Qmult_lt_0_compat.
  - intros Hwd. destruct (Qlt_le_dec 0 w) as [|Hle]; [done|]. exfalso.
    apply (Qlt_irrefl 0). eapply Qlt_le_trans; [exact Hwd|].
    rewrite <- (Qmult_0_l d). by apply Qmult_le_compat_r, Qlt_le_weak.
Qed.

(** X16. The width of a member of a child group is positive only while the
    offsets of 3 per group leave room: in a group of two or more, under a
    parent of a top-level run of [m] events, exactly when
    [3 * groupNumber * m < 100]; in a group of one, exactly when
    [3 * groupNumber < 100]. *)
Theorem child_width_sign σ c out idx s siblings groups ncols gi group i x se :
  getStyledEvents σ c = Done out →
  Visits (helperArgs σ c) (initial σ) idx s →
  (idx < length (events (helperArgs σ c)))%nat →
  getSiblings (store s) idx (helperArgs σ c) = Done siblings →
  getChildGroups (store s) idx (idx + length siblings + 1) (helperArgs σ c)
    = Done (groups, ncols) →
  groups !! gi = Some group →
  group !! i = Some x →
  styledEvents out !! x = Some (Some se) →
  ((2 ≤ length group)%nat →
   (0 < width (style se))%Q ↔ (3 * (gi + 1) * (length siblings + 1) < 100)%nat)
  ∧ (length group = 1%nat →
     (0 < width (style se))%Q ↔ (3 * (gi + 1) < 100)%nat).
Proof.
  intros Hout Hv Hidx Hsib Hch Hg Hx Hse.
  destruct (visited_cluster σ c out idx s Hout Hv Hidx)
    as (n & groups' & ncols' & s1 & s' & Hsib' & Hch' & _ & _ & _ & _ & _ & Hw3 & _
        & Htop & Hgr).
  rewrite Hsib in Hsib'. injection Hsib' as ->. rewrite length_seq in *.
  rewrite Hch in Hch'. injection Hch' as <- <-.
  destruct (Hgr gi group Hg) as (s2 & _ & k & parent & _ & Hk & _ & Hpar & Hmem).
  destruct (Hmem i x Hx) as (se0 & l & Hse0 & Hwd & _).
  pose proof (writes_keeps_entry _ _ _ _ _ _ _ Hw3 Hse0) as Hse0'.
  rewrite Hse in Hse0'. injection Hse0' as <-.
  destruct (Htop k Hk) as (pe & lp & Hpe & Hpw & _).
  rewrite Hpar in Hpe. injection Hpe as <-.
  assert (Hpw' : (width (style parent) == 100 / of_nat (n + 1))%Q).
  { rewrite Hpw. unfold top_width. rewrite length_seq.
    destruct (Nat.eqb_spec n 0) as [->|_]; [by vm_compute|reflexivity]. }
  unfold child_width in Hwd. split.
  - intros Hlen. rewrite (proj2 (Nat.eqb_neq _ _)) in Hwd by lia.
    assert (Hm : (0 < of_nat (n + 1))%Q) by (apply of_nat_pos; lia).
    assert (HL : (0 < of_nat (length group))%Q) by (apply of_nat_pos; lia).
    rewrite (Qpos_scaled _ (of_nat (n + 1) * of_nat (length group))
               (100 - 3 * of_nat (gi + 1) * of_nat (n + 1))).
    + unfold of_nat, Qlt, Qminus, Qplus, Qopp, Qmult, inject_Z. cbn. lia.
    + by apply Qmult_lt_0_compat.
    + rewrite Hwd, Hpw', (of_nat_add_1 gi). field. split.
      * intros Heq. rewrite Heq in HL. by apply Qlt_irrefl in HL.
      * intros Heq. rewrite Heq in Hm. by apply Qlt_irrefl in Hm.
  - intros Hlen. rewrite (proj2 (Nat.eqb_eq _ _)) in Hwd by done. rewrite Hwd.
    unfold of_nat, Qlt, Qminus, Qplus, Qopp, Qmult, inject_Z. cbn. lia.
Qed.

(** X17. In a window of positive length, [top] of every styled event is a
    percentage between 0 and 100. *)
Theorem top_in_window σ c out i se :
  0 < cfg_totalMin c →
  getStyledEvents σ c = Done out →
  styledEvents out !! i = Some (Some se) →
  ∃ t, top (style se) = Some t ∧ (0 <= t)%Q ∧ (t <= 100)%Q.
Proof.
  intros HT Hout Hse. destruct (run_spec σ c) as (out' & Hout' & Hw).
  rewrite Hout in Hout'. injection Hout' as <-.
  destruct (writes_entries _ _ _ _ _ Hw i) as (se' & Hse' & l & e & _ & _ & _ & Hv).
  { apply lookup_lt_Some in Hse. rewrite (writes_to _ _ _ _ _ Hw) in Hse. lia. }
  rewrite Hse in Hse'. injection Hse' as <-.
  destruct Hv as (t & h & Ht & _ & Hteq & _); [cbn; lia|].
  exists t. split; [done|]. rewrite Hteq.
  change (totalMin (helperArgs σ c)) with (cfg_totalMin c).
  assert (Hrange : 0 <= startSlot (helperArgs σ c) e <= cfg_totalMin c).
  { unfold startSlot, positionFromDate. cbn [min totalMin helperArgs].
    destruct (startsBefore _ _ _); [lia|].
    destruct (merge _ _ _) as [merged|]; [|lia].
    pose proof (diff_nonneg (cfg_min c) merged Minutes). lia. }
  set (p := startSlot _ _) in *.
  assert (HTq : (0 < inject_Z (cfg_totalMin c))%Q) by (unfold Qlt; cbn; lia).
  split.
  - apply Qle_shift_div_l; [done|]. rewrite Qmult_0_l.
    apply Qmult_le_0_compat; [done|]. change 0%Q with (inject_Z 0).
    rewrite <- Zle_Qle. lia.
  - apply Qle_shift_div_r; [done|]. apply Qmult_le_l; [done|].
    rewrite <- Zle_Qle. lia.
Qed.

Lemma getChildGroups_children σ a idx nextIdx groups ncols :
  getChildGroups σ idx nextIdx a = Done (groups, ncols) →
  Forall (is_child_group σ a idx) groups.
Proof.
  unfold getChildGroups. intros Hrun.
  destruct (getChildGroups_loop_groups σ a idx (S (length (events a))) nextIdx [] 0)
    as (new & Hrun' & _ & Hfa & _); [lia|].
  rewrite Hrun in Hrun'. by injection Hrun' as -> _.
Qed.

(** X18. For accessors that read the caller's fields, the parent a child
    group resolves to is a parent of the first member of the group: it
    stands before it in the array, is not its sibling, and ends after the
    member starts. *)
Theorem resolved_parent_contains σ c out idx s siblings groups ncols gi group :
  reads_payload (cfg_startAccessor c) →
  reads_payload (cfg_endAccessor c) →
  getStyledEvents σ c = Done out →
  Visits (helperArgs σ c) (initial σ) idx s →
  (idx < length (events (helperArgs σ c)))%nat →
  getSiblings (store s) idx (helperArgs σ c) = Done siblings →
  getChildGroups (store s) idx (idx + length siblings + 1) (helperArgs σ c)
    = Done (groups, ncols) →
  groups !! gi = Some group →
  ∃ p first σ1,
    group !! 0%nat = Some first
    ∧ p ∈ idx :: siblings
    ∧ same_payload σ σ1
    ∧ reparent (S (length siblings)) σ1 (helperArgs σ c) siblings group (Some idx) 0
      = Done (Some p)
    ∧ (p < first)%nat
    ∧ isChild σ (Some p) (Some first) (helperArgs σ c) = true.
Proof.
  intros Hrs Hre Hout Hv Hidx Hsib Hch Hg.
  assert (Hst : stable (helperArgs σ c)) by done.
  destruct (visited_cluster σ c out idx s Hout Hv Hidx)
    as (n & groups' & ncols' & s1 & s' & Hsib' & Hch' & Hgs & _ & Hw0 & Hw1 & _ & _ & _
        & _ & Hgr).
  rewrite Hsib in Hsib'. injection Hsib' as ->. rewrite length_seq in Hch.
  pose proof (getChildGroups_children _ _ _ _ _ _ Hch) as Hfa.
  rewrite Hch in Hch'. injection Hch' as <- <-.
  destruct (Hgr gi group Hg) as (s2 & Hw12 & k & parent & Hre2 & Hk & _).
  rewrite Forall_lookup in Hfa.
  destruct (Hfa gi group Hg) as (first & m & Hgeq & Hchild & _).
  destruct (groups_from_lookup _ _ _ _ Hgs Hg) as (m' & Hgeq' & _).
  assert (Hfirst : first = (idx + n + 1 + span length (take gi groups))%nat).
  { rewrite Hgeq in Hgeq'. cbn in Hgeq'. by injection Hgeq'. }
  assert (Hw02 : writes (helperArgs σ c) 0
            (idx + n + 1 + span length (take gi groups)) (initial σ) s2).
  { eapply writes_trans; [exact Hw0|]. by eapply writes_trans. }
  assert (Hsame : ∀ σ', same_payload σ σ' → ∀ p q,
            isChild σ' p q (helperArgs σ c) = isChild σ p q (helperArgs σ c)).
  { intros σ' Hp p q. symmetry. apply isChild_alike.
    eapply (alike_same_payload _ _ Hst Hst); [apply alike_refl|done|done]. }
  exists (idx + k)%nat, first, (store s2).
  split; [by rewrite Hgeq|]. split.
  { change (idx :: seq (S idx) n) with (seq idx (S n)). apply elem_of_seq. lia. }
  split; [apply Hw02|]. split; [exact Hre2|]. split; [lia|].
  destruct (reparent_run (store s2) (helperArgs σ c) idx n group)
    as (k' & Hre' & _ & Hall & _).
  rewrite Hre2 in Hre'. injection Hre' as Hkk.
  assert (k' = k) as -> by lia.
  destruct (decide (k = 0)%nat) as [->|Hk0].
  - rewrite Nat.add_0_r. rewrite <- (Hsame (store s)); [done|apply Hw0].
  - rewrite <- (Hsame (store s2)); [|apply Hw02].
    assert (group !! 0%nat = Some first) as <- by (by rewrite Hgeq).
    apply Hall. lia.
Qed.
(** X19. In a window of positive length and for a step that is not
    negative, [top] and [height] of every styled event are numbers, and
    [height] is not negative, whatever the dates of the event: the end slot
    is raised to the start slot plus the step before the difference is
    taken, so that an event that ends where it starts, or before, has no
    negative height either. *)
Theorem height_not_negative σ c out i se :
  0 < cfg_totalMin c →
  0 <= cfg_step c →
  getStyledEvents σ c = Done out →
  styledEvents out !! i = Some (Some se) →
  ∃ t h, top (style se) = Some t ∧ height (style se) = Some h ∧ (0 <= h)%Q.
Proof.
  intros HT Hstep Hout Hse.
  destruct (vertical_exact σ c out i se HT Hout Hse)
    as (l & e & h & _ & _ & (t & h' & Ht & _) & _ & Hh & _ & Hpos).
  exists t, h. split; [done|]. split; [done|]. by apply Hpos.
Qed.

End ClusterFacts.

(** ** The further properties at sample inputs *)

Section MoreSamples.
Import Sample.
Local Existing Instance UTC.utc.

Ltac utc_field :=
  intros; cbn; unfold UTC.set_field, UTC.field, UTC.floor_to, MILLI in *;
  Z.div_mod_to_equations; lia.

(** Universal time keeps the laws. *)
Lemma utc_laws : DateLaws UTC.utc.
Proof. split; utc_field. Qed.

Lemma positionFromDate_range_witness :
  0 <= 600
  ∧ 0 <= positionFromDate (UTC.at_time 0 12 0) (Some (UTC.at_time 0 23 0))
           (UTC.at_time 0 8 0) 600 <= 600.
Proof.
  split; [lia|].
  apply (positionFromDate_range (UTC.at_time 0 12 0) (Some (UTC.at_time 0 23 0))
           (UTC.at_time 0 8 0) 600). lia.
Defined.

Lemma merge_fields_witness :
  DateLaws UTC.utc
  ∧ ∃ merged,
      merge (UTC.at_time 0 12 0) (Some (3 * MILLI Day))
        (Some (UTC.at_time (5 * MILLI Day) 9 30)) = Some merged
      ∧ hours merged = 9
      ∧ startOf merged Day = 3 * MILLI Day.
Proof.
  split; [exact utc_laws|].
  destruct (merge_fields (UTC.at_time 0 12 0) (3 * MILLI Day)
              (UTC.at_time (5 * MILLI Day) 9 30) utc_laws)
    as (merged & Hmerged & Hh & _ & _ & _ & _ & _ & Hd).
  exists merged. split; [exact Hmerged|]. split; [exact Hh|exact Hd].
Defined.

(** The layout a sample run returns, evaluated. *)
Ltac with_layout objs n k :=
  let r := eval vm_compute in (getStyledEvents (store_of objs) (day n)) in
  lazymatch r with
  | Done ?out =>
      let Hout := fresh "Hout" in
      assert (Hout : getStyledEvents (store_of objs) (day n) = Done out)
        by (vm_compute; reflexivity);
      k out Hout
  end.

Lemma getStyledEvents_footprint_witness :
  ∃ out,
    getStyledEvents (store_of twins) (day 2) = Done out
    ∧ same_payload (store_of twins) (store out)
    ∧ store out 7%nat = store_of twins 7%nat.
Proof.
  with_layout twins 2%nat ltac:(fun out Hout =>
    exists out;
    destruct (getStyledEvents_footprint (store_of twins) (day 2) out Hout)
      as (Hsame & Hframe);
    split; [exact Hout|]; split; [exact Hsame|];
    apply Hframe; intros Hin; apply elem_of_seq in Hin; lia).
Defined.

Lemma clusters_partition_witness :
  (3 < length (unsortedEvents (day 5)))%nat
  ∧ ∃ idx s s' idx',
      Visits (args overlooked) (initial (store_of overlooked)) idx s
      ∧ cluster (args overlooked) idx s = Done (s', idx')
      ∧ (idx ≤ 3 < idx')%nat.
Proof.
  assert (Hlt : (3 < length (unsortedEvents (day 5)))%nat) by (vm_compute; lia).
  split; [exact Hlt|].
  destruct (clusters_partition (store_of overlooked) (day 5) 3 Hlt)
    as (idx & s & s' & idx' & Hv & Hcl & Hin & _).
  exists idx, s, s', idx'. split; [exact Hv|]. split; [exact Hcl|exact Hin].
Defined.

Lemma top_level_fields_witness :
  ∃ out l,
    getStyledEvents (store_of twins) (day 2) = Done out
    ∧ Visits (args twins) (initial (store_of twins)) 0 (initial (store_of twins))
    ∧ (0 < length (events (args twins)))%nat
    ∧ getSiblings (store_of twins) 0 (args twins) = Done [1%nat]
    ∧ (1 ≤ length [1%nat])%nat
    ∧ NoDup (unsortedEvents (day 2))
    ∧ events (args twins) !! 1%nat = Some l
    ∧ groupStart (store out l) = Some false
    ∧ groupEnd (store out l) = Some true.
Proof.
  with_layout twins 2%nat ltac:(fun out Hout =>
    exists out;
    destruct (top_level_fields (store_of twins) (day 2) out 0
                (initial (store_of twins)) [1%nat] 1 Hout
                (visits_first _ _) (Nat.lt_0_succ 1) eq_refl (le_n 1) (NoDup_seq 0 2))
      as (l & Hl & Hrun & _);
    destruct Hrun as (Hs & He & _); [discriminate|];
    exists l; split; [exact Hout|]; split; [constructor|];
    split; [apply Nat.lt_0_succ|]; split; [reflexivity|]; split; [apply le_n|];
    split; [apply NoDup_seq|]; split; [exact Hl|]; split; [exact Hs|exact He]).
Defined.

Lemma top_in_window_witness :
  ∃ out se t,
    0 < cfg_totalMin (day 1)
    ∧ getStyledEvents (store_of single) (day 1) = Done out
    ∧ styledEvents out !! 0%nat = Some (Some se)
    ∧ top (style se) = Some t
    ∧ (0 <= t)%Q ∧ (t <= 100)%Q.
Proof.
  with_layout single 1%nat ltac:(fun out Hout =>
    exists out; eexists;
    destruct (top_in_window (store_of single) (day 1) out 0 _
                (eq_refl : 0 < cfg_totalMin (day 1)) Hout eq_refl)
      as (t & Ht & Hlo & Hhi);
    exists t; split; [reflexivity|]; split; [exact Hout|];
    split; [reflexivity|]; split; [exact Ht|]; split; [exact Hlo|exact Hhi]).
Defined.

Lemma resolved_parent_contains_witness :
  ∃ out p first,
    reads_payload (cfg_startAccessor (day 5))
    ∧ reads_payload (cfg_endAccessor (day 5))
    ∧ getStyledEvents (store_of overlooked) (day 5) = Done out
    ∧ Visits (args overlooked) (initial (store_of overlooked)) 0
        (initial (store_of overlooked))
    ∧ (0 < length (events (args overlooked)))%nat
    ∧ getSiblings (store_of overlooked) 0 (args overlooked) = Done [1; 2]%nat
    ∧ getChildGroups (store_of overlooked) 0 3 (args overlooked)
      = Done ([[3; 4]], 2)%nat
    ∧ [3; 4]%nat !! 0%nat = Some first
    ∧ (p < first)%nat
    ∧ isChild (store_of overlooked) (Some p) (Some first) (args overlooked) = true.
Proof.
  with_layout overlooked 5%nat ltac:(fun out Hout =>
    exists out;
    destruct (resolved_parent_contains (store_of overlooked) (day 5) out 0
                (initial (store_of overlooked)) [1; 2]%nat [[3; 4]]%nat 2 0
                [3; 4]%nat start_field_reads_payload end_field_reads_payload
                Hout (visits_first _ _) (Nat.lt_0_succ 4) eq_refl eq_refl eq_refl)
      as (p & first & σ1 & Hfirst & _ & _ & _ & Hlt & Hchild);
    exists p, first; split; [exact start_field_reads_payload|];
    split; [exact end_field_reads_payload|]; split; [exact Hout|];
    split; [constructor|]; split; [apply Nat.lt_0_succ|];
    split; [reflexivity|]; split; [reflexivity|];
    split; [exact Hfirst|]; split; [exact Hlt|exact Hchild]).
Defined.


Lemma child_width_sign_witness :
  ∃ out se,
    getStyledEvents (store_of overlooked) (day 5) = Done out
    ∧ Visits (args overlooked) (initial (store_of overlooked)) 0
        (initial (store_of overlooked))
    ∧ (0 < length (events (args overlooked)))%nat
    ∧ getSiblings (store_of overlooked) 0 (args overlooked) = Done [1; 2]%nat
    ∧ getChildGroups (store_of overlooked) 0 3 (args overlooked)
      = Done ([[3; 4]], 2)%nat
    ∧ styledEvents out !! 4%nat = Some (Some se)
    ∧ (2 ≤ length [3; 4]%nat)%nat
    ∧ (0 < width (style se))%Q.
Proof.
  assert (Hroom : (3 * (0 + 1) * (length [1; 2]%nat + 1) < 100)%nat)
    by (vm_compute; lia).
  with_layout overlooked 5%nat ltac:(fun out Hout =>
    exists out; eexists;
    destruct (child_width_sign (store_of overlooked) (day 5) out 0
                (initial (store_of overlooked)) [1; 2]%nat [[3; 4]]%nat 2 0
                [3; 4]%nat 1 4 _ Hout (visits_first _ _)
                (Nat.lt_0_succ 4) eq_refl eq_refl eq_refl eq_refl eq_refl)
      as (Hmany & _);
    split; [exact Hout|]; split; [constructor|]; split; [apply Nat.lt_0_succ|];
    split; [reflexivity|]; split; [reflexivity|]; split; [reflexivity|];
    split; [apply le_n|]; exact (proj2 (Hmany (le_n 2)) Hroom)).
Defined.


(** An event that ends before it starts. *)
Lemma height_not_negative_witness :
  ∃ out se h,
    0 < cfg_totalMin (day 1)
    ∧ 0 <= cfg_step (day 1)
    ∧ getStyledEvents (store_of [ev 600 540]) (day 1) = Done out
    ∧ styledEvents out !! 0%nat = Some (Some se)
    ∧ height (style se) = Some h
    ∧ (0 <= h)%Q.
Proof.
  assert (Hstep : 0 <= cfg_step (day 1)) by (vm_compute; discriminate).
  with_layout [ev 600 540] 1%nat ltac:(fun out Hout =>
    exists out; eexists;
    destruct (height_not_negative (store_of [ev 600 540]) (day 1) out 0 _
                (eq_refl : 0 < cfg_totalMin (day 1)) Hstep Hout eq_refl)
      as (t & h & _ & Hh & Hpos);
    exists h; split; [reflexivity|]; split; [exact Hstep|]; split; [exact Hout|];
    split; [reflexivity|]; split; [exact Hh|exact Hpos]).
Defined.

End MoreSamples.
